(** * Loops03For: the [for] loop lesson, embedded and verified

    A shallow embedding of [src/Loops03For.py].  Python integers are [Z],
    Python lists are [list], [None]-or-value is [option].  Every [for]
    statement of the source is written with the combinator [for_each],
    whose body says how the iteration ends ([Next] for falling through or
    [continue], [Break] for [break]) and whose result says whether the
    loop was exhausted, which is what the [else] clause of a loop tests.

    The three file helpers are modelled at two levels.  The store is a
    finite map from a path to the text of the regular file it names: it
    tells what the helpers do to the contents of files when they return.
    The disk ([Disk]) has directories as well and tells when the helpers
    return and when they raise.  Text files are read the way Python's text
    layer reads them with its default [newline] argument: a carriage
    return, alone or followed by a line feed, is handed to the program as
    one line feed.  Output is the POSIX one (a line feed is written as it
    is).  Files hold text that decodes; permissions, links and the space
    left on the device are outside the model. *)

From stdpp Require Import base list strings gmap.
From Stdlib Require Import ZArith Ascii.

Local Open Scope Z_scope.

(** ** Control flow of a [for] statement *)

Inductive flow (S : Type) : Type :=
| Next (s : S)
| Break (s : S).
Arguments Next {S} s.
Arguments Break {S} s.

Inductive loop_exit : Type :=
| Exhausted
| Broken.

Fixpoint for_each {A S : Type} (body : A → S → flow S) (xs : list A) (s : S)
  : S * loop_exit :=
  match xs with
  | [] => (s, Exhausted)
  | x :: rest =>
      match body x s with
      | Next s' => for_each body rest s'
      | Break s' => (s', Broken)
      end
  end.

(** [range(start, stop)] and [range(stop)] with the default step 1. *)
Definition range2 (start stop : Z) : list Z := seqZ start (stop - start).
Definition range (stop : Z) : list Z := range2 0 stop.

(** The test [n % 2 == 0]; Python's [%] with a positive divisor is [Z.modulo]. *)
Definition is_even (n : Z) : bool := n mod 2 =? 0.

(** ** Basics *)

Definition iterate_list {A : Type} (xs : list A) : list A :=
  fst (for_each (λ x out, Next (out ++ [x])) xs []).

(** ** enumerate / zip *)

Definition with_zip {A B : Type} (names : list A) (ages : list B) : list (A * B) :=
  fst (for_each (λ '(n, a) pairs, Next (pairs ++ [(n, a)])) (zip names ages) []).

(** ** break / continue / else *)

Definition find_first_even_body (n : Z) (first : option Z) : flow (option Z) :=
  if is_even n then Break (Some n) else Next first.

Definition find_first_even (nums : list Z) : option Z * bool :=
  let '(first, how) := for_each find_first_even_body nums None in
  let else_ran := match how with Exhausted => true | Broken => false end in
  (first, else_ran).

Definition odds_only (nums : list Z) : list Z :=
  fst (for_each (λ n out, if is_even n then Next out else Next (out ++ [n]))
         nums []).

(** ** Nested loops *)

Definition multiplication_row (n i : Z) : list Z :=
  fst (for_each (λ j row, Next (row ++ [i * j])) (range2 1 (n + 1)) []).

Definition multiplication_table (n : Z) : list (list Z) :=
  fst (for_each (λ i table, Next (table ++ [multiplication_row n i]))
         (range2 1 (n + 1)) []).

(** ** Comprehensions *)

Definition squares_until (n : Z) : list Z :=
  List.map (λ i, i * i) (range n).

Definition even_squares_until (n : Z) : list Z :=
  List.map (λ i, i * i) (List.filter is_even (range n)).

(** The lists the specification recomputes directly: [i*i] for [i] from 0
    to [k-1], and the same restricted to even [i]. *)
Fixpoint squares_below (k : nat) : list Z :=
  match k with
  | O => []
  | S k' => squares_below k' ++ [Z.of_nat k' * Z.of_nat k']
  end.

Fixpoint even_squares_below (k : nat) : list Z :=
  match k with
  | O => []
  | S k' =>
      even_squares_below k'
        ++ (if Nat.even k' then [Z.of_nat k' * Z.of_nat k'] else [])
  end.

(** ** Text files *)

Definition LF : ascii := "010"%char.
Definition CR : ascii := "013"%char.

(** [s.rstrip(chars)]: [s] without its longest suffix made of characters
    of [chars]. *)
Fixpoint rstrip (chars s : list ascii) : list ascii :=
  match s with
  | [] => []
  | c :: rest =>
      match rstrip chars rest with
      | [] => if existsb (Ascii.eqb c) chars then [] else [c]
      | kept => c :: kept
      end
  end.

(** What the text layer hands to the program when a file is opened for
    reading with the default [newline]: CR LF and a lone CR both become LF.
    [pendingcr] tells that the previous character was a CR. *)
Fixpoint decode_newlines (pendingcr : bool) (data : list ascii) : list ascii :=
  match data with
  | [] => []
  | c :: rest =>
      if Ascii.eqb c CR then LF :: decode_newlines true rest
      else if Ascii.eqb c LF then
        if pendingcr then decode_newlines false rest
        else LF :: decode_newlines false rest
      else c :: decode_newlines false rest
  end.

(** The lines that iterating over a file yields: each runs up to and
    includes its LF; the last one has none when the text does not end
    with LF. *)
Fixpoint split_lines (s : list ascii) : list (list ascii) :=
  match s with
  | [] => []
  | c :: rest =>
      if Ascii.eqb c LF then [LF] :: split_lines rest
      else
        match split_lines rest with
        | [] => [[c]]
        | line :: more => (c :: line) :: more
        end
  end.

Definition read_lines (data : list ascii) : list (list ascii) :=
  split_lines (decode_newlines false data).

(** A text is newline-terminated when it is empty or ends with LF. *)
Definition newline_terminated (s : list ascii) : bool :=
  match last s with
  | None => true
  | Some c => Ascii.eqb c LF
  end.

(** A string that holds no LF, and no CR except as its last character:
    written with an LF after it, it is read back as one line. *)
Fixpoint single_line (s : list ascii) : bool :=
  match s with
  | [] => true
  | c :: rest =>
      if Ascii.eqb c LF then false
      else if Ascii.eqb c CR then match rest with [] => true | _ => false end
      else single_line rest
  end.

(** The regular files of the store, by path: one key per file. *)
Abbreviation files := (gmap string (list ascii)).

(** What [ensure_file] does to the contents of files when it returns: an
    existing file keeps its content, a missing one is created empty.  When
    it returns and when it raises is told by [Disk.ensure_file]. *)
Definition ensure_file (fs : files) (path : string) : files :=
  match fs !! path with
  | Some _ => fs
  | None => <[path := []]> fs
  end.

(** [f.write(s)] on a handle opened with mode ["a"]: the text goes to the
    end of the file. *)
Definition write_end (fs : files) (path : string) (s : list ascii) : files :=
  <[path := default [] (fs !! path) ++ s]> fs.

(** [None] stands for the [FileNotFoundError] of [path.open("r")]; the
    other ways for the call to raise are told by [Disk.count_lines]. *)
Definition count_lines (fs : files) (path : string) : option (files * Z) :=
  let fs := ensure_file fs path in
  match fs !! path with
  | None => None
  | Some data =>
      let count := fst (for_each (λ _ count, Next (count + 1)) (read_lines data) 0) in
      Some (fs, count)
  end.

Definition normalized (line : list ascii) : list ascii := rstrip [LF] line ++ [LF].

Definition append_lines (fs : files) (path : string) (lines : list (list ascii))
  : files :=
  let fs := ensure_file fs path in
  fst (for_each (λ line fs, Next (write_end fs path (rstrip [LF] line ++ [LF])))
         lines fs).

(** Text literals for the examples. *)
Definition text (s : string) : list ascii := String.list_ascii_of_string s.

(** ** The disk under the store *)

(** The store above holds the text of the regular files and nothing else:
    it tells what the helpers do to the contents of files when they return.
    Whether they return is told here, on a disk that has directories too.

    A path is the list of its parts below the directory it is resolved
    from; the empty list is that directory itself ([Path(".")], [Path("")]).
    Each file has one path: [".."] parts and links are outside the model,
    and so are permissions and the space left on the device. *)
Module Disk.

Inductive error : Type :=
| FileExistsError
| NotADirectoryError
| IsADirectoryError
| FileNotFoundError.

Inductive result (A : Type) : Type :=
| Ok (a : A)
| Raise (e : error).
Arguments Ok {A} a.
Arguments Raise {A} e.

Inductive node : Type :=
| File (data : list ascii)
| Dir.

Abbreviation disk := (gmap (list string) node).

(** [path.parent]; the parent of the starting directory is itself. *)
Definition parent (path : list string) : list string := removelast path.

(** On a disk the starting directory exists, and whatever exists lies in a
    directory. *)
Definition well_formed (d : disk) : Prop :=
  d !! [] = Some Dir
  ∧ ∀ path node, d !! path = Some node → d !! parent path = Some Dir.

(** [mkdir(parents=True, exist_ok=True)] on the directory [done ++ todo],
    the part [done] of the way being walked already: a directory on the way
    is entered, a missing one is made, a regular file stops the walk, with
    [FileExistsError] when it stands where the directory is wanted and
    [NotADirectoryError] when it stands above. *)
Fixpoint make_dirs (d : disk) (done todo : list string) : result disk :=
  match todo with
  | [] =>
      match d !! done with
      | Some Dir => Ok d
      | Some (File _) => Raise FileExistsError
      | None => Ok (<[done := Dir]> d)
      end
  | name :: rest =>
      match d !! done with
      | Some Dir => make_dirs d (done ++ [name]) rest
      | Some (File _) => Raise NotADirectoryError
      | None => make_dirs (<[done := Dir]> d) (done ++ [name]) rest
      end
  end.

Definition mkdir_parents (d : disk) (path : list string) : result disk :=
  make_dirs d [] path.

(** [path.touch(exist_ok=True)]: what exists, file or directory, is left as
    it is; a missing file is created empty in its directory. *)
Definition touch (d : disk) (path : list string) : result disk :=
  match d !! path with
  | Some _ => Ok d
  | None =>
      match d !! parent path with
      | Some Dir => Ok (<[path := File []]> d)
      | Some (File _) => Raise NotADirectoryError
      | None => Raise FileNotFoundError
      end
  end.

Definition ensure_file (d : disk) (path : list string) : result disk :=
  match mkdir_parents d (parent path) with
  | Raise e => Raise e
  | Ok d => touch d path
  end.

Definition count_lines (d : disk) (path : list string) : result (disk * Z) :=
  match ensure_file d path with
  | Raise e => Raise e
  | Ok d =>
      match d !! path with
      | Some (File data) =>
          let count :=
            fst (for_each (λ _ count, Next (count + 1)) (read_lines data) 0) in
          Ok (d, count)
      | Some Dir => Raise IsADirectoryError
      | None => Raise FileNotFoundError
      end
  end.

(** [f.write(s)] on a handle opened with mode ["a"]. *)
Definition write_end (d : disk) (path : list string) (s : list ascii) : disk :=
  match d !! path with
  | Some (File data) => <[path := File (data ++ s)]> d
  | _ => d
  end.

(** [path.open("a")]: a directory cannot be opened, a missing file is
    created. *)
Definition open_append (d : disk) (path : list string) : result disk :=
  match d !! path with
  | Some (File _) => Ok d
  | Some Dir => Raise IsADirectoryError
  | None => touch d path
  end.

Definition append_lines (d : disk) (path : list string)
    (lines : list (list ascii)) : result disk :=
  match ensure_file d path with
  | Raise e => Raise e
  | Ok d =>
      match open_append d path with
      | Raise e => Raise e
      | Ok d =>
          Ok (fst (for_each
                     (λ line d, Next (write_end d path (rstrip [LF] line ++ [LF])))
                     lines d))
      end
  end.

End Disk.

(** ** The other loops of the lesson *)

(** Iterating over a [str] yields its characters as one-character strings;
    a string is the list of its characters, whatever a character is. *)
Definition iterate_string {C : Type} (s : list C) : list (list C) :=
  fst (for_each (λ ch chars, Next (chars ++ [[ch]])) s []).

(** [len(range(start, stop, step))] for a step that is not zero, computed
    as the interpreter does: from the distance to cover and the size of the
    step. *)
Definition range_length (start stop step : Z) : Z :=
  if 0 <? step then
    if start <? stop then (stop - start - 1) / step + 1 else 0
  else
    if stop <? start then (start - stop - 1) / (- step) + 1 else 0.

(** [range(start, stop, step)]; [None] stands for the [ValueError] raised
    when the step is zero. *)
Definition range3 (start stop step : Z) : option (list Z) :=
  if step =? 0 then None
  else Some ((λ i, start + i * step) <$> seqZ 0 (range_length start stop step)).

Definition numeric_loops (start stop step : Z) : option (list Z) :=
  match range3 start stop step with
  | None => None
  | Some numbers => Some (fst (for_each (λ i out, Next (out ++ [i])) numbers []))
  end.

(** [enumerate(items, start=start)]. *)
Fixpoint enumerate {A : Type} (items : list A) (start : Z) : list (Z * A) :=
  match items with
  | [] => []
  | x :: rest => (start, x) :: enumerate rest (start + 1)
  end.

Definition with_enumerate {A : Type} (items : list A) (start : Z) : list (Z * A) :=
  fst (for_each (λ '(idx, val) out, Next (out ++ [(idx, val)]))
         (enumerate items start) []).

(** A [dict] is the list of its entries in insertion order, with no key
    twice.  [dict_get] is [d.get(k)]; [dict_set] is [d[k] = v]: the value of
    a key already present is replaced where it stands, a new key goes to
    the end. *)
Section Dict.
Context {K V : Type} `{EqDecision K}.

Fixpoint dict_get (d : list (K * V)) (k : K) : option V :=
  match d with
  | [] => None
  | (k', v) :: rest => if decide (k = k') then Some v else dict_get rest k
  end.

Fixpoint dict_set (d : list (K * V)) (k : K) (v : V) : list (K * V) :=
  match d with
  | [] => [(k, v)]
  | (k', v') :: rest =>
      if decide (k = k') then (k', v) :: rest else (k', v') :: dict_set rest k v
  end.
End Dict.

Definition dict_iteration {K V : Type} (d : list (K * V)) : list K * list (K * V) :=
  let keys := fst (for_each (λ k keys, Next (keys ++ [k])) (List.map fst d) []) in
  let items := fst (for_each (λ '(k, v) items, Next (items ++ [(k, v)])) d []) in
  (keys, items).

Definition dict_comp_word_lengths {C : Type} `{EqDecision C} (words : list (list C))
  : list (list C * Z) :=
  fst (for_each (λ w d, Next (dict_set d w (Z.of_nat (length w)))) words []).

(** ** Loop lemmas *)

Section ForEach.
Context {A S : Type}.

Lemma for_each_collect (f : A → list S) (body : A → list S → flow (list S)) :
  (∀ x out, body x out = Next (out ++ f x)) →
  ∀ xs out, for_each body xs out = (out ++ concat (List.map f xs), Exhausted).
Proof.
  intros Hbody xs. induction xs as [|x xs IH]; intros out; simpl.
  - by rewrite app_nil_r.
  - by rewrite Hbody, IH, <- app_assoc.
Qed.

Lemma for_each_app (body : A → S → flow S) (xs ys : list A) (s : S) :
  for_each body (xs ++ ys) s =
    match for_each body xs s with
    | (s', Exhausted) => for_each body ys s'
    | (s', Broken) => (s', Broken)
    end.
Proof.
  revert s. induction xs as [|x xs IH]; intros s; simpl; [done|].
  destruct (body x s); [apply IH | done].
Qed.
End ForEach.

Lemma concat_singletons {A B : Type} (f : A → B) (xs : list A) :
  concat (List.map (λ x, [f x]) xs) = List.map f xs.
Proof. induction xs as [|x xs IH]; simpl; [done | by rewrite IH]. Qed.

Lemma is_even_false_odd (n : Z) : is_even n = false ↔ n mod 2 ≠ 0.
Proof. unfold is_even. by rewrite Z.eqb_neq. Qed.

Lemma is_even_true (n : Z) : is_even n = true ↔ n mod 2 = 0.
Proof. unfold is_even. by rewrite Z.eqb_eq. Qed.

(** C6. [iterate_list] is the identity on sequences: the list it returns
    has the elements of its argument, in the same order. *)
Theorem iterate_list_id {A : Type} (xs : list A) : iterate_list xs = xs.
Proof.
  unfold iterate_list.
  rewrite (for_each_collect (λ x, [x])) by done.
  simpl. rewrite (concat_singletons id). by rewrite List.map_id.
Qed.

Lemma with_zip_zip {A B : Type} (names : list A) (ages : list B) :
  with_zip names ages = zip names ages.
Proof.
  unfold with_zip.
  rewrite (for_each_collect (λ p, [p])) by (by intros [n a] out).
  simpl. rewrite (concat_singletons id). by rewrite List.map_id.
Qed.

(** C3. The list returned by [with_zip] is as long as the shorter of its
    two arguments. *)
Theorem with_zip_length {A B : Type} (names : list A) (ages : list B) :
  length (with_zip names ages) = Nat.min (length names) (length ages).
Proof.
  rewrite with_zip_zip. revert ages.
  induction names as [|n names IH]; intros [|a ages]; simpl; auto.
Qed.

(** C9. Below the length of the shorter argument, the [i]-th element of
    [with_zip names ages] is the pair of the [i]-th name and the [i]-th age. *)
Theorem with_zip_lookup {A B : Type} (names : list A) (ages : list B) (i : nat) :
  (i < Nat.min (length names) (length ages))%nat →
  ∃ n a, names !! i = Some n ∧ ages !! i = Some a
         ∧ with_zip names ages !! i = Some (n, a).
Proof.
  rewrite with_zip_zip. revert ages i.
  induction names as [|n names IH]; intros [|a ages] i Hi; simpl in Hi; try lia.
  destruct i as [|i]; simpl.
  - by exists n, a.
  - apply IH. lia.
Qed.

Lemma with_zip_lookup_witness :
  (1 < Nat.min (length ["Ala"; "Ola"; "Ewa"]%string) (length [25; 30]))%nat
  ∧ ∃ n a, ["Ala"; "Ola"; "Ewa"]%string !! 1%nat = Some n
           ∧ [25; 30] !! 1%nat = Some a
           ∧ with_zip ["Ala"; "Ola"; "Ewa"]%string [25; 30] !! 1%nat = Some (n, a).
Proof.
  split; [simpl; lia|].
  apply (with_zip_lookup ["Ala"; "Ola"; "Ewa"]%string [25; 30] 1). simpl; lia.
Defined.

(** The search loop, element by element: it breaks at the first even
    number and is exhausted when there is none. *)
Lemma find_first_even_loop (nums : list Z) (first : option Z) :
  (Forall (λ n, n mod 2 ≠ 0) nums
   ∧ for_each find_first_even_body nums first = (first, Exhausted))
  ∨ (∃ pre v post, nums = pre ++ v :: post
       ∧ Forall (λ n, n mod 2 ≠ 0) pre ∧ v mod 2 = 0
       ∧ for_each find_first_even_body nums first = (Some v, Broken)).
Proof.
  induction nums as [|n nums IH]; simpl.
  - left. by split.
  - unfold find_first_even_body at 1 3. destruct (is_even n) eqn:En.
    + right. exists [], n, nums. apply is_even_true in En. by repeat split.
    + apply is_even_false_odd in En.
      destruct IH as [[Hodd Hrun] | (pre & v & post & -> & Hpre & Hv & Hrun)].
      * left. split; [by constructor | done].
      * right. exists (n :: pre), v, post. repeat split; [by constructor | done..].
Qed.

(** C2. When [nums] contains an even number, [find_first_even] returns a
    first value that is not [None] (the first even element) and a false
    flag; when it contains none, it returns [None] and a true flag; and the
    flag is true exactly when the loop was exhausted rather than left by
    [break]. *)
Theorem find_first_even_spec (nums : list Z) :
  ((∃ n, n ∈ nums ∧ n mod 2 = 0) →
     ∃ pre v post, find_first_even nums = (Some v, false)
       ∧ nums = pre ++ v :: post ∧ v mod 2 = 0 ∧ Forall (λ n, n mod 2 ≠ 0) pre)
  ∧ ((∀ n, n ∈ nums → n mod 2 ≠ 0) → find_first_even nums = (None, true))
  ∧ (snd (find_first_even nums) = true
     ↔ snd (for_each find_first_even_body nums None) = Exhausted).
Proof.
  unfold find_first_even.
  destruct (find_first_even_loop nums None)
    as [[Hodd Hrun] | (pre & v & post & Hnums & Hpre & Hv & Hrun)];
    rewrite Hrun; simpl.
  - split; [|done]. intros (n & Hin & Hn).
    rewrite Forall_forall in Hodd. by destruct (Hodd n Hin).
  - split; [intros _; by exists pre, v, post|].
    split; [|split; discriminate].
    intros Hodd. destruct (Hodd v); [|done].
    subst nums. apply elem_of_app. right. by left.
Qed.

Lemma find_first_even_spec_witness :
  (∃ n, n ∈ [1; 3; 5; 8; 9] ∧ n mod 2 = 0)
  ∧ find_first_even [1; 3; 5; 8; 9] = (Some 8, false)
  ∧ (∀ n, n ∈ [1; 3; 5] → n mod 2 ≠ 0)
  ∧ find_first_even [1; 3; 5] = (None, true).
Proof.
  assert (Hex : ∃ n, n ∈ [1; 3; 5; 8; 9] ∧ n mod 2 = 0).
  { exists 8. split; [|reflexivity]. do 3 right. left. }
  assert (Hodd : ∀ n, n ∈ [1; 3; 5] → n mod 2 ≠ 0).
  { intros n Hn. rewrite !elem_of_cons, elem_of_nil in Hn.
    destruct Hn as [-> | [-> | [-> | []]]]; discriminate. }
  split; [exact Hex|].
  split; [|split; [exact Hodd|]].
  - destruct (find_first_even_spec [1; 3; 5; 8; 9]) as [H _].
    destruct (H Hex) as (pre & v & post & Hrun & _).
    rewrite Hrun. vm_compute in Hrun. by injection Hrun as <-.
  - destruct (find_first_even_spec [1; 3; 5]) as (_ & H & _).
    exact (H Hodd).
Defined.

(** C4. [odds_only nums] keeps exactly the elements of [nums] that fail the
    evenness test, in their original order. *)
Theorem odds_only_filter (nums : list Z) :
  odds_only nums = List.filter (λ n, negb (is_even n)) nums.
Proof.
  unfold odds_only.
  rewrite (for_each_collect (λ n, if is_even n then [] else [n])).
  - simpl. induction nums as [|n nums IH]; simpl; [done|].
    rewrite IH. by destruct (is_even n).
  - intros n out. destruct (is_even n); [by rewrite app_nil_r | done].
Qed.

Lemma range_S (k : nat) : range (Z.of_nat (S k)) = range (Z.of_nat k) ++ [Z.of_nat k].
Proof. unfold range, range2. rewrite !Z.sub_0_r. apply seqZ_S. Qed.

Lemma is_even_of_nat (k : nat) : is_even (Z.of_nat k) = Nat.even k.
Proof.
  unfold is_even. destruct (Nat.even k) eqn:Ek.
  - apply Nat.even_spec in Ek as [m ->]. apply Z.eqb_eq.
    rewrite Nat2Z.inj_mul, Z.mul_comm. apply Z.mod_mul. lia.
  - apply Z.eqb_neq. intros Hmod.
    assert (Nat.even k = true); [|congruence].
    apply Nat.even_spec. exists (Z.to_nat (Z.of_nat k / 2)).
    apply Nat2Z.inj. rewrite Nat2Z.inj_mul, Z2Nat.id by (apply Z.div_pos; lia).
    rewrite (Z.div_mod (Z.of_nat k) 2) at 1 by lia. simpl. lia.
Qed.

Lemma squares_until_of_nat (k : nat) : squares_until (Z.of_nat k) = squares_below k.
Proof.
  unfold squares_until. induction k as [|k IH]; [done|].
  rewrite range_S, List.map_app, IH. done.
Qed.

Lemma even_squares_until_of_nat (k : nat) :
  even_squares_until (Z.of_nat k) = even_squares_below k.
Proof.
  unfold even_squares_until. induction k as [|k IH]; [done|].
  rewrite range_S, List.filter_app, List.map_app, IH. simpl.
  rewrite is_even_of_nat. by destruct (Nat.even k).
Qed.

(** C5. For [n] among 0, 1, 5 and 10, [squares_until n] is the list of
    [i*i] for [i] from 0 to [n-1], and [even_squares_until n] is the list of
    [i*i] for the even [i] of that range. *)
Theorem squares_until_recomputed (n : Z) :
  n ∈ [0; 1; 5; 10] →
  squares_until n = squares_below (Z.to_nat n)
  ∧ even_squares_until n = even_squares_below (Z.to_nat n).
Proof.
  intros Hn. assert (0 ≤ n).
  { rewrite !elem_of_cons, elem_of_nil in Hn. lia. }
  rewrite <- (Z2Nat.id n) at 1 3 by done.
  split; [apply squares_until_of_nat | apply even_squares_until_of_nat].
Qed.

Lemma squares_until_recomputed_witness :
  5 ∈ [0; 1; 5; 10]
  ∧ squares_until 5 = [0; 1; 4; 9; 16]
  ∧ even_squares_until 5 = [0; 4; 16].
Proof.
  assert (H5 : 5 ∈ [0; 1; 5; 10]) by (do 2 right; left).
  split; [exact H5|]. exact (squares_until_recomputed 5 H5).
Defined.

Lemma multiplication_row_map (n i : Z) :
  multiplication_row n i = List.map (λ j, i * j) (range2 1 (n + 1)).
Proof.
  unfold multiplication_row.
  rewrite (for_each_collect (λ j, [i * j])) by done.
  simpl. apply concat_singletons.
Qed.

Lemma multiplication_table_map (n : Z) :
  multiplication_table n = List.map (multiplication_row n) (range2 1 (n + 1)).
Proof.
  unfold multiplication_table.
  rewrite (for_each_collect (λ i, [multiplication_row n i])) by done.
  simpl. apply concat_singletons.
Qed.

Lemma range2_one_lookup (n : Z) (i : nat) :
  (i < Z.to_nat n)%nat → range2 1 (n + 1) !! i = Some (Z.of_nat i + 1).
Proof.
  intros Hi. unfold range2. rewrite lookup_seqZ_lt by lia. f_equal. lia.
Qed.

(** C8. For [n ≥ 0], [multiplication_table n] has [n] rows of [n] entries
    each, and the entry in row [i], column [j] (counted from 0) is
    [(i+1)*(j+1)]. *)
Theorem multiplication_table_spec (n : Z) :
  0 ≤ n →
  length (multiplication_table n) = Z.to_nat n
  ∧ Forall (λ row, length row = Z.to_nat n) (multiplication_table n)
  ∧ ∀ i j : nat, (i < Z.to_nat n)%nat → (j < Z.to_nat n)%nat →
      ∃ row, multiplication_table n !! i = Some row
             ∧ row !! j = Some ((Z.of_nat i + 1) * (Z.of_nat j + 1)).
Proof.
  intros Hn. rewrite multiplication_table_map.
  assert (Hlen : ∀ i, length (multiplication_row n i) = Z.to_nat n).
  { intros i. rewrite multiplication_row_map, List.length_map.
    unfold range2. rewrite length_seqZ. lia. }
  split; [|split].
  - rewrite List.length_map. unfold range2. rewrite length_seqZ. lia.
  - apply Forall_forall. intros row Hrow.
    apply list_elem_of_In, List.in_map_iff in Hrow as (i & <- & _). apply Hlen.
  - intros i j Hi Hj. exists (multiplication_row n (Z.of_nat i + 1)). split.
    + change (List.map ?f ?l) with (f <$> l).
      by rewrite list_lookup_fmap, range2_one_lookup.
    + rewrite multiplication_row_map. change (List.map ?f ?l) with (f <$> l).
      by rewrite list_lookup_fmap, range2_one_lookup.
Qed.

Lemma multiplication_table_spec_witness :
  0 ≤ 3
  ∧ multiplication_table 3 = [[1; 2; 3]; [2; 4; 6]; [3; 6; 9]]
  ∧ length (multiplication_table 3) = 3%nat.
Proof.
  split; [lia|]. split; [reflexivity|].
  exact (proj1 (multiplication_table_spec 3 ltac:(lia))).
Defined.

(** ** Reading lines *)

Lemma eqb_LF_CR : Ascii.eqb LF CR = false.
Proof. reflexivity. Qed.

Lemma newline_terminated_cons (c : ascii) (s : list ascii) :
  newline_terminated (c :: s)
  = match s with [] => Ascii.eqb c LF | _ => newline_terminated s end.
Proof. by destruct s. Qed.

Lemma newline_terminated_snoc (s : list ascii) :
  newline_terminated (s ++ [LF]) = true.
Proof. unfold newline_terminated. by rewrite last_snoc. Qed.

Lemma newline_terminated_inv (s : list ascii) :
  newline_terminated s = true → s = [] ∨ ∃ pre, s = pre ++ [LF].
Proof.
  destruct s as [|c s _] using rev_ind; [by left|].
  unfold newline_terminated. rewrite last_snoc.
  intros ->%Ascii.eqb_eq. right. by exists s.
Qed.

Lemma decode_newlines_nil (s : list ascii) :
  decode_newlines false s = [] → s = [].
Proof.
  destruct s as [|c s]; [done|]. simpl.
  by destruct (Ascii.eqb c CR), (Ascii.eqb c LF).
Qed.

Lemma split_lines_nil (s : list ascii) : split_lines s = [] → s = [].
Proof.
  destruct s as [|c s]; [done|]. simpl.
  destruct (Ascii.eqb c LF); [done|]. by destruct (split_lines s).
Qed.

Lemma decode_newlines_after_LF (pendingcr : bool) (pre rest : list ascii) :
  decode_newlines pendingcr (pre ++ LF :: rest)
  = decode_newlines pendingcr (pre ++ [LF]) ++ decode_newlines false rest.
Proof.
  revert pendingcr. induction pre as [|c pre IH]; intros pendingcr.
  - simpl. by destruct pendingcr.
  - simpl. destruct (Ascii.eqb c CR); [by rewrite IH|].
    destruct (Ascii.eqb c LF); [destruct pendingcr|]; by rewrite IH.
Qed.

Lemma decode_newlines_terminated (pendingcr : bool) (pre : list ascii) :
  newline_terminated (decode_newlines pendingcr (pre ++ [LF])) = true.
Proof.
  revert pendingcr. induction pre as [|c pre IH]; intros pendingcr.
  - simpl. by destruct pendingcr.
  - simpl. destruct (Ascii.eqb c CR).
    { rewrite newline_terminated_cons.
      specialize (IH true). by destruct (decode_newlines true (pre ++ [LF])). }
    destruct (Ascii.eqb c LF); [destruct pendingcr; [apply IH|]|].
    + rewrite newline_terminated_cons.
      specialize (IH false). by destruct (decode_newlines false (pre ++ [LF])).
    + rewrite newline_terminated_cons.
      specialize (IH false).
      destruct (decode_newlines false (pre ++ [LF])) eqn:E; [|done].
      apply decode_newlines_nil in E. by destruct pre.
Qed.

Lemma split_lines_after_LF (pre rest : list ascii) :
  split_lines (pre ++ LF :: rest) = split_lines (pre ++ [LF]) ++ split_lines rest.
Proof.
  induction pre as [|c pre IH]; [done|]. simpl.
  destruct (Ascii.eqb c LF); [by rewrite IH|].
  rewrite IH. destruct (split_lines (pre ++ [LF])) eqn:E; [|done].
  apply split_lines_nil in E. by destruct pre.
Qed.

Lemma read_lines_app (old new : list ascii) :
  newline_terminated old = true →
  read_lines (old ++ new) = read_lines old ++ read_lines new.
Proof.
  intros [-> | [pre ->]]%newline_terminated_inv; [done|].
  unfold read_lines. rewrite <- app_assoc. simpl.
  rewrite decode_newlines_after_LF.
  pose proof (decode_newlines_terminated false pre) as Hterm.
  apply newline_terminated_inv in Hterm as [-> | [pre' ->]]; [done|].
  rewrite <- app_assoc. simpl. apply split_lines_after_LF.
Qed.

Lemma split_lines_terminated (s : list ascii) :
  newline_terminated s = true →
  Forall (λ line, ∃ body, line = body ++ [LF]) (split_lines s).
Proof.
  induction s as [|c s IH]; [constructor|].
  rewrite newline_terminated_cons. simpl. intros Hterm.
  destruct (Ascii.eqb c LF) eqn:Ec.
  - constructor; [by exists []|]. destruct s; [constructor | by apply IH].
  - destruct s as [|d s]; [done|]. specialize (IH Hterm).
    destruct (split_lines (d :: s)) as [|line more] eqn:E.
    { by apply split_lines_nil in E. }
    inversion IH as [|? ? [body ->] Hmore]; subst.
    constructor; [by exists (c :: body) | done].
Qed.

Lemma single_line_read (s : list ascii) :
  single_line s = true →
  ∃ line, ∀ rest,
    read_lines (s ++ LF :: rest) = line :: read_lines rest.
Proof.
  unfold read_lines. induction s as [|c s IH]; simpl.
  - intros _. by exists [LF].
  - destruct (Ascii.eqb c LF) eqn:Ec; [done|].
    destruct (Ascii.eqb c CR) eqn:Ecr.
    + destruct s; [|done]. intros _. by exists [LF].
    + intros [line Hline]%IH. exists (c :: line). intros rest.
      simpl. by rewrite Ec, Hline.
Qed.

(** ** The file helpers *)

Lemma ensure_file_lookup (fs : files) (path : string) :
  ensure_file fs path !! path = Some (default [] (fs !! path)).
Proof.
  unfold ensure_file. destruct (fs !! path) eqn:E; simpl; [done|].
  apply lookup_insert_eq.
Qed.

Lemma ensure_file_other (fs : files) (path other : string) :
  other ≠ path → ensure_file fs path !! other = fs !! other.
Proof.
  intros Hne. unfold ensure_file. destruct (fs !! path); [done|].
  by apply lookup_insert_ne.
Qed.

Lemma ensure_file_present (fs : files) (path : string) (data : list ascii) :
  fs !! path = Some data → ensure_file fs path = fs.
Proof. intros E. unfold ensure_file. by rewrite E. Qed.

Lemma count_loop {A : Type} (xs : list A) (count : Z) :
  for_each (λ _ count, Next (count + 1)) xs count
  = (count + Z.of_nat (length xs), Exhausted).
Proof.
  revert count. induction xs as [|x xs IH]; intros count; cbn [for_each].
  - by rewrite Z.add_0_r.
  - rewrite IH. f_equal. rewrite length_cons. lia.
Qed.

Lemma count_lines_eq (fs : files) (path : string) :
  count_lines fs path
  = Some (ensure_file fs path,
          Z.of_nat (length (read_lines (default [] (fs !! path))))).
Proof.
  unfold count_lines. rewrite ensure_file_lookup, count_loop. done.
Qed.

Lemma append_loop (fs : files) (path : string) (old : list ascii)
    (lines : list (list ascii)) :
  fs !! path = Some old →
  for_each (λ line fs, Next (write_end fs path (rstrip [LF] line ++ [LF]))) lines fs
  = (<[path := old ++ concat (List.map normalized lines)]> fs, Exhausted).
Proof.
  revert fs old. induction lines as [|line lines IH]; intros fs old Hold; simpl.
  - rewrite app_nil_r. by rewrite insert_id.
  - rewrite (IH _ (old ++ normalized line)).
    + unfold write_end. by rewrite insert_insert_eq, app_assoc.
    + unfold write_end. rewrite lookup_insert_eq, Hold. done.
Qed.

Lemma append_lines_eq (fs : files) (path : string) (lines : list (list ascii)) :
  append_lines fs path lines
  = <[path := default [] (fs !! path) ++ concat (List.map normalized lines)]>
      (ensure_file fs path).
Proof.
  unfold append_lines.
  by rewrite (append_loop _ _ _ _ (ensure_file_lookup fs path)).
Qed.

Lemma written_terminated (lines : list (list ascii)) :
  newline_terminated (concat (List.map normalized lines)) = true.
Proof.
  destruct lines as [|line lines _] using rev_ind; [done|].
  rewrite List.map_app, concat_app. simpl. rewrite app_nil_r.
  unfold normalized at 2. rewrite app_assoc. apply newline_terminated_snoc.
Qed.

Lemma written_lines_count (lines : list (list ascii)) :
  Forall (λ line, single_line (rstrip [LF] line) = true) lines →
  length (read_lines (concat (List.map normalized lines))) = length lines.
Proof.
  induction 1 as [|line lines Hline _ IH]; [done|]. simpl.
  unfold normalized at 1. rewrite <- app_assoc. simpl.
  destruct (single_line_read _ Hline) as [l Hl]. rewrite Hl. simpl. by rewrite IH.
Qed.

Lemma ensure_file_idem (fs : files) (path : string) :
  ensure_file (ensure_file fs path) path = ensure_file fs path.
Proof. apply (ensure_file_present _ _ _ (ensure_file_lookup fs path)). Qed.

(** [rstrip] with the one character LF removes the trailing LFs and
    nothing else. *)
Lemma rstrip_LF_spec (s : list ascii) :
  ∃ k, s = rstrip [LF] s ++ replicate k LF ∧ last (rstrip [LF] s) ≠ Some LF.
Proof.
  induction s as [|c s (k & Hs & Hlast)]; [by exists 0%nat|]. simpl.
  destruct (rstrip [LF] s) as [|x kept] eqn:E.
  - rewrite orb_false_r. destruct (Ascii.eqb c LF) eqn:Ec.
    + apply Ascii.eqb_eq in Ec as ->. exists (S k). by rewrite Hs at 1.
    + exists k. rewrite Hs at 1. split; [done|]. simpl.
      intros [= ->]. by rewrite Ascii.eqb_refl in Ec.
  - exists k. by rewrite Hs at 1.
Qed.

Example rstrip_trailing :
  rstrip [LF] (text "ab" ++ [LF; LF]) = text "ab"
  ∧ rstrip [LF] (text "a" ++ [LF] ++ text "b") = text "a" ++ [LF] ++ text "b"
  ∧ rstrip [LF] [LF] = [].
Proof. by repeat split. Qed.

Example read_lines_universal :
  read_lines (text "a" ++ [CR; LF] ++ text "b" ++ [CR] ++ text "c")
  = [text "a" ++ [LF]; text "b" ++ [LF]; text "c"].
Proof. reflexivity. Qed.

(** C1, as the code has it. When the file is missing, empty or ends with a
    line feed, and every input string, once its trailing line feeds are
    stripped, holds no line feed and no carriage return except as its last
    character, [append_lines] raises the value of [count_lines] by the number
    of strings; this holds from the store as it was and from the store the
    first count leaves. *)
Theorem append_lines_count (fs : files) (path : string) (lines : list (list ascii)) :
  newline_terminated (default [] (fs !! path)) = true →
  Forall (λ line, single_line (rstrip [LF] line) = true) lines →
  ∃ fs1 fs2 before,
    count_lines fs path = Some (fs1, before)
    ∧ count_lines (append_lines fs path lines) path
      = Some (fs2, before + Z.of_nat (length lines))
    ∧ count_lines (append_lines fs1 path lines) path
      = Some (fs2, before + Z.of_nat (length lines)).
Proof.
  intros Hold Hlines.
  exists (ensure_file fs path), (append_lines fs path lines),
    (Z.of_nat (length (read_lines (default [] (fs !! path))))).
  assert (Hsame : append_lines (ensure_file fs path) path lines
                  = append_lines fs path lines).
  { by rewrite !append_lines_eq, ensure_file_idem, ensure_file_lookup. }
  split; [apply count_lines_eq|]. rewrite Hsame.
  enough (count_lines (append_lines fs path lines) path
          = Some (append_lines fs path lines,
                  Z.of_nat (length (read_lines (default [] (fs !! path))))
                  + Z.of_nat (length lines))) by done.
  rewrite count_lines_eq, append_lines_eq.
  rewrite lookup_insert_eq. simpl.
  rewrite (ensure_file_present _ _ _ (lookup_insert_eq _ _ _)).
  rewrite read_lines_app, length_app, written_lines_count by done.
  do 2 f_equal. lia.
Qed.

Lemma append_lines_count_witness :
  newline_terminated (default [] ((∅ : files) !! "file.txt"%string)) = true
  ∧ Forall (λ line, single_line (rstrip [LF] line) = true)
      [text "pierwsza"; text "druga" ++ [LF]; text "trzecia" ++ [CR; LF]]
  ∧ ∃ fs1 fs2 before,
      count_lines ∅ "file.txt" = Some (fs1, before)
      ∧ count_lines
          (append_lines ∅ "file.txt"
             [text "pierwsza"; text "druga" ++ [LF]; text "trzecia" ++ [CR; LF]])
          "file.txt"
        = Some (fs2, before + 3)
      ∧ count_lines
          (append_lines fs1 "file.txt"
             [text "pierwsza"; text "druga" ++ [LF]; text "trzecia" ++ [CR; LF]])
          "file.txt"
        = Some (fs2, before + 3).
Proof.
  assert (Hold : newline_terminated (default [] ((∅ : files) !! "file.txt"%string))
                 = true) by reflexivity.
  assert (Hlines : Forall (λ line, single_line (rstrip [LF] line) = true)
            [text "pierwsza"; text "druga" ++ [LF]; text "trzecia" ++ [CR; LF]]).
  { repeat constructor. }
  split; [exact Hold|]. split; [exact Hlines|].
  exact (append_lines_count ∅ "file.txt" _ Hold Hlines).
Defined.

(** C1 fails as stated: a string with a line feed inside it adds two lines. *)
Lemma append_lines_count_inner_newline :
  ¬ (∀ (fs : files) (path : string) (lines : list (list ascii))
       (fs1 fs2 : files) (before after : Z),
       count_lines fs path = Some (fs1, before) →
       count_lines (append_lines fs path lines) path = Some (fs2, after) →
       after = before + Z.of_nat (length lines)).
Proof.
  intros H.
  pose proof (H ∅ "file.txt"%string [text "a" ++ [LF] ++ text "b"]
                _ _ 0 2 eq_refl eq_refl) as Hcount.
  discriminate Hcount.
Qed.

(** The count does not move either when the last line of the file has no
    line feed: the first string written completes that line. *)
Example append_lines_count_open_line :
  let fs : files := {[ "file.txt"%string := text "abc" ]} in
  snd <$> count_lines fs "file.txt" = Some 1
  ∧ snd <$> count_lines (append_lines fs "file.txt" [text "x"]) "file.txt" = Some 1.
Proof. by vm_compute. Qed.

(** C7, as the code has it. Whatever the file held, [append_lines] keeps
    that content as the beginning of the new content and puts after it, in
    order, each input string with its trailing line feeds stripped and one
    line feed added; no other file changes. When the file was missing, empty
    or ended with a line feed, the lines read from it afterwards are the
    lines it had, unchanged, followed by the lines of the written text, each
    of which ends with a line feed. *)
Theorem append_lines_frame (fs : files) (path : string) (lines : list (list ascii)) :
  let old := default [] (fs !! path) in
  let written := concat (List.map (λ line, rstrip [LF] line ++ [LF]) lines) in
  append_lines fs path lines !! path = Some (old ++ written)
  ∧ (∀ other, other ≠ path → append_lines fs path lines !! other = fs !! other)
  ∧ (newline_terminated old = true →
     read_lines (old ++ written) = read_lines old ++ read_lines written
     ∧ Forall (λ line, ∃ body, line = body ++ [LF]) (read_lines written)).
Proof.
  intros old written. rewrite append_lines_eq.
  change (concat (List.map normalized lines)) with written.
  split; [apply lookup_insert_eq|]. split.
  - intros other Hne. rewrite lookup_insert_ne by done.
    by apply ensure_file_other.
  - intros Hold. split; [by apply read_lines_app|].
    pose proof (written_terminated lines) as Hw.
    change (concat (List.map normalized lines)) with written in Hw.
    apply newline_terminated_inv in Hw as [-> | [pre ->]]; [constructor|].
    apply split_lines_terminated, decode_newlines_terminated.
Qed.

Lemma append_lines_frame_witness :
  let fs : files := {[ "file.txt"%string := text "abc" ++ [LF] ]} in
  newline_terminated (default [] (fs !! "file.txt"%string)) = true
  ∧ append_lines fs "file.txt" [text "x"; text "y" ++ [LF; LF]] !! "file.txt"%string
    = Some (text "abc" ++ [LF] ++ text "x" ++ [LF] ++ text "y" ++ [LF])
  ∧ read_lines (text "abc" ++ [LF] ++ text "x" ++ [LF] ++ text "y" ++ [LF])
    = read_lines (text "abc" ++ [LF]) ++ read_lines (text "x" ++ [LF] ++ text "y" ++ [LF]).
Proof.
  intros fs.
  assert (Hold : newline_terminated (default [] (fs !! "file.txt"%string)) = true)
    by reflexivity.
  destruct (append_lines_frame fs "file.txt" [text "x"; text "y" ++ [LF; LF]])
    as (Hcontent & _ & Hlines).
  split; [exact Hold|]. split; [exact Hcontent|]. exact (proj1 (Hlines Hold)).
Defined.

(** C7 fails as stated: when the last line of the file has no line feed,
    the first string written is joined to it, so that line is not a line of
    the file any more. *)
Lemma append_lines_frame_open_line :
  ¬ (∀ (fs : files) (path : string) (lines : list (list ascii))
       (old new : list ascii),
       fs !! path = Some old →
       append_lines fs path lines !! path = Some new →
       ∃ added, read_lines new = read_lines old ++ added).
Proof.
  intros H.
  destruct (H {[ "file.txt"%string := text "abc" ]} "file.txt"%string [text "x"]
              (text "abc") (text "abcx" ++ [LF])) as [added Hadded].
  - apply lookup_singleton_eq.
  - by vm_compute.
  - vm_compute in Hadded. discriminate Hadded.
Qed.

(** ** Strings, ranges and enumerate *)

Lemma concat_singletons_id {A : Type} (xs : list A) :
  concat (List.map (λ x, [x]) xs) = xs.
Proof. rewrite (concat_singletons id). apply List.map_id. Qed.

(** X1. [iterate_string s] has one entry per character of [s], each entry
    is a string of one character, and joining the entries gives [s] back. *)
Theorem iterate_string_join {C : Type} (s : list C) :
  length (iterate_string s) = length s
  ∧ Forall (λ ch, length ch = 1%nat) (iterate_string s)
  ∧ concat (iterate_string s) = s.
Proof.
  unfold iterate_string.
  rewrite (for_each_collect (λ ch, [[ch]])) by done. simpl.
  rewrite (concat_singletons (λ ch, [ch])).
  split; [apply List.length_map|]. split; [|apply concat_singletons_id].
  induction s; simpl; by constructor.
Qed.

Lemma numeric_loops_range3 (start stop step : Z) :
  numeric_loops start stop step = range3 start stop step.
Proof.
  unfold numeric_loops. destruct (range3 start stop step) as [numbers|]; [|done].
  rewrite (for_each_collect (λ i, [i])) by done. simpl.
  by rewrite concat_singletons_id.
Qed.

Lemma range3_nonzero (start stop step : Z) :
  step ≠ 0 →
  range3 start stop step
  = Some ((λ i, start + i * step) <$> seqZ 0 (range_length start stop step)).
Proof. intros Hstep. unfold range3. by apply Z.eqb_neq in Hstep as ->. Qed.

Lemma elem_of_arithmetic (start step len x : Z) :
  x ∈ (λ i, start + i * step) <$> seqZ 0 len
  ↔ ∃ i, 0 ≤ i < len ∧ x = start + i * step.
Proof.
  rewrite list_elem_of_fmap. setoid_rewrite elem_of_seqZ. split.
  - intros (i & -> & Hi). exists i. split; [lia | done].
  - intros (i & Hi & ->). exists i. split; [done | lia].
Qed.

(** X2. With a positive step, [numeric_loops start stop step] returns
    exactly the numbers from [start] up to but not including [stop] that
    are a multiple of [step] away from [start]. *)
Theorem numeric_loops_up (start stop step : Z) :
  0 < step →
  ∃ out, numeric_loops start stop step = Some out
    ∧ ∀ x, x ∈ out ↔ start ≤ x < stop ∧ (x - start) mod step = 0.
Proof.
  intros Hstep. rewrite numeric_loops_range3.
  rewrite range3_nonzero by lia. eexists. split; [done|]. intros x.
  rewrite elem_of_arithmetic.
  unfold range_length. destruct (Z.ltb_spec 0 step); [|lia]. split.
  - intros (i & Hi & ->).
    replace (start + i * step - start) with (i * step) by lia.
    rewrite Z.mod_mul by lia. split; [|done].
    destruct (Z.ltb_spec start stop); [|lia].
    assert (step * ((stop - start - 1) / step) ≤ stop - start - 1)
      by (apply Z.mul_div_le; lia).
    nia.
  - intros [Hx Hmod]. exists ((x - start) / step).
    pose proof (Z.div_mod (x - start) step ltac:(lia)) as Hdiv.
    rewrite Hmod, Z.add_0_r in Hdiv.
    destruct (Z.ltb_spec start stop); [|lia].
    split; [|lia]. split; [apply Z.div_pos; lia|].
    enough ((x - start) / step ≤ (stop - start - 1) / step) by lia.
    apply Z.div_le_mono; lia.
Qed.

Lemma numeric_loops_up_witness :
  0 < 3
  ∧ ∃ out, numeric_loops 1 11 3 = Some out
      ∧ ∀ x, x ∈ out ↔ 1 ≤ x < 11 ∧ (x - 1) mod 3 = 0.
Proof. split; [lia|]. apply (numeric_loops_up 1 11 3). lia. Defined.

(** X3. With a negative step, [numeric_loops start stop step] returns
    exactly the numbers from [start] down to but not including [stop] that
    are a multiple of [step] away from [start]. *)
Theorem numeric_loops_down (start stop step : Z) :
  step < 0 →
  ∃ out, numeric_loops start stop step = Some out
    ∧ ∀ x, x ∈ out ↔ stop < x ≤ start ∧ (start - x) mod (- step) = 0.
Proof.
  intros Hstep. rewrite numeric_loops_range3.
  rewrite range3_nonzero by lia. eexists. split; [done|]. intros x.
  rewrite elem_of_arithmetic.
  unfold range_length. destruct (Z.ltb_spec 0 step); [lia|]. split.
  - intros (i & Hi & ->).
    replace (start - (start + i * step)) with (i * - step) by lia.
    rewrite Z.mod_mul by lia. split; [|done].
    destruct (Z.ltb_spec stop start); [|lia].
    assert (- step * ((start - stop - 1) / - step) ≤ start - stop - 1)
      by (apply Z.mul_div_le; lia).
    nia.
  - intros [Hx Hmod]. exists ((start - x) / - step).
    pose proof (Z.div_mod (start - x) (- step) ltac:(lia)) as Hdiv.
    rewrite Hmod, Z.add_0_r in Hdiv.
    destruct (Z.ltb_spec stop start); [|lia].
    split; [|lia]. split; [apply Z.div_pos; lia|].
    enough ((start - x) / - step ≤ (start - stop - 1) / - step) by lia.
    apply Z.div_le_mono; lia.
Qed.

Lemma numeric_loops_down_witness :
  -3 < 0
  ∧ ∃ out, numeric_loops 10 0 (-3) = Some out
      ∧ ∀ x, x ∈ out ↔ 0 < x ≤ 10 ∧ (10 - x) mod (- -3) = 0.
Proof. split; [lia|]. apply (numeric_loops_down 10 0 (-3)). lia. Defined.

(** X4. [numeric_loops] fails exactly when the step is zero; with any other
    step it returns a list whose [i]-th number is [start + i * step]. *)
Theorem numeric_loops_step_zero (start stop step : Z) :
  (numeric_loops start stop step = None ↔ step = 0)
  ∧ ∀ out (i : nat) x, numeric_loops start stop step = Some out →
      out !! i = Some x → x = start + Z.of_nat i * step.
Proof.
  rewrite numeric_loops_range3. unfold range3.
  destruct (Z.eqb_spec step 0) as [->|Hne]; [done|].
  split; [done|]. intros out i x [= <-].
  rewrite list_lookup_fmap. intros Hx.
  destruct (seqZ 0 _ !! i) as [j|] eqn:Ej; [|done].
  apply lookup_seqZ in Ej as [-> _]. injection Hx as <-. lia.
Qed.

(** X5. With the default step 1, [numeric_loops start stop] is the list of
    consecutive integers [start], ..., [stop - 1], of length [stop - start]
    (empty when [stop ≤ start]); it is the list the one-step [range] of the
    other loops runs over. *)
Theorem numeric_loops_default_step (start stop : Z) :
  numeric_loops start stop 1 = Some (range2 start stop)
  ∧ length (range2 start stop) = Z.to_nat (stop - start)
  ∧ ∀ i : nat, (i < Z.to_nat (stop - start))%nat →
      range2 start stop !! i = Some (start + Z.of_nat i).
Proof.
  split; [|split].
  - rewrite numeric_loops_range3. unfold range3, range2, range_length. simpl.
    f_equal. rewrite Z.div_1_r.
    destruct (Z.ltb_spec start stop).
    + replace (stop - start - 1 + 1) with (stop - start) by lia.
      trans (Z.add start <$> seqZ 0 (stop - start)).
      * apply list_fmap_ext. intros. lia.
      * by rewrite fmap_add_seqZ, Z.add_0_r.
    + by rewrite (seqZ_nil start) by lia.
  - apply length_seqZ.
  - intros i Hi. unfold range2. apply lookup_seqZ_lt. lia.
Qed.

Lemma with_enumerate_enumerate {A : Type} (items : list A) (start : Z) :
  with_enumerate items start = enumerate items start.
Proof.
  unfold with_enumerate.
  rewrite (for_each_collect (λ p, [p])) by (by intros [idx val] out).
  simpl. apply concat_singletons_id.
Qed.

Lemma enumerate_zip {A : Type} (items : list A) (start : Z) :
  enumerate items start = zip (seqZ start (Z.of_nat (length items))) items.
Proof.
  revert start. induction items as [|x items IH]; intros start; [done|].
  rewrite length_cons, seqZ_cons by lia. simpl enumerate. rewrite IH.
  replace (Z.pred (Z.of_nat (S (length items)))) with (Z.of_nat (length items))
    by lia.
  done.
Qed.

(** X6. [with_enumerate items start] has one pair per item, and its [i]-th
    pair is the [i]-th item with the number [start + i]. *)
Theorem with_enumerate_lookup {A : Type} (items : list A) (start : Z) :
  length (with_enumerate items start) = length items
  ∧ ∀ i : nat, with_enumerate items start !! i
               = (λ x, (start + Z.of_nat i, x)) <$> items !! i.
Proof.
  rewrite with_enumerate_enumerate. split.
  - revert start. induction items as [|x items IH]; intros start; simpl; auto.
  - intros i. revert start i.
    induction items as [|x items IH]; intros start [|i]; simpl; try done.
    + by rewrite Z.add_0_r.
    + rewrite IH. destruct (items !! i); simpl; [|done]. do 2 f_equal. lia.
Qed.

(** X7. [with_enumerate] is [with_zip] of the numbers
    [start], [start + 1], ... with the items: dropping the numbers gives
    the items back, and the numbers are the range from [start] of the same
    length. *)
Theorem with_enumerate_as_zip {A : Type} (items : list A) (start : Z) :
  with_enumerate items start
  = with_zip (range2 start (start + Z.of_nat (length items))) items
  ∧ List.map snd (with_enumerate items start) = items
  ∧ List.map fst (with_enumerate items start)
    = range2 start (start + Z.of_nat (length items)).
Proof.
  rewrite with_enumerate_enumerate, with_zip_zip, enumerate_zip. unfold range2.
  replace (start + Z.of_nat (length items) - start) with (Z.of_nat (length items))
    by lia.
  split; [done|]. split.
  - apply snd_zip. rewrite length_seqZ. lia.
  - apply fst_zip. rewrite length_seqZ. lia.
Qed.

(** X8. Taking [with_zip] apart gives back the beginning of each input:
    as many names as there are ages, and as many ages as there are names. *)
Theorem with_zip_unzip {A B : Type} (names : list A) (ages : list B) :
  List.map fst (with_zip names ages) = take (length ages) names
  ∧ List.map snd (with_zip names ages) = take (length names) ages.
Proof.
  rewrite with_zip_zip. revert ages.
  induction names as [|n names IH]; intros [|a ages]; simpl; try done.
  destruct (IH ages) as [-> ->]. done.
Qed.

(** ** Dictionaries *)

Section DictFacts.
Context {K V : Type} `{EqDecision K}.
Implicit Types (d : list (K * V)) (k : K) (v : V).

Lemma dict_get_set d k v k' :
  dict_get (dict_set d k v) k' = if decide (k' = k) then Some v else dict_get d k'.
Proof.
  induction d as [|[k0 v0] d IH]; csimpl.
  - by destruct (decide (k' = k)).
  - destruct (decide (k = k0)) as [->|Hne]; csimpl.
    + by destruct (decide (k' = k0)).
    + rewrite IH. destruct (decide (k' = k0)) as [->|]; [|done].
      by destruct (decide (k0 = k)).
Qed.

Lemma dict_set_keys d k v :
  (dict_set d k v).*1 = if decide (k ∈ d.*1) then d.*1 else d.*1 ++ [k].
Proof.
  induction d as [|[k0 v0] d IH]; csimpl.
  - destruct (decide (k ∈ [])) as [Hin|]; [by apply elem_of_nil in Hin | done].
  - destruct (decide (k = k0)) as [->|Hne]; csimpl.
    + destruct (decide (k0 ∈ k0 :: d.*1)) as [|Hnin]; [done|].
      destruct Hnin. by left.
    + rewrite IH. destruct (decide (k ∈ d.*1)) as [Hin|Hnin].
      * destruct (decide (k ∈ k0 :: d.*1)) as [|Hnin]; [done|].
        destruct Hnin. by right.
      * destruct (decide (k ∈ k0 :: d.*1)) as [Hin|]; [|done].
        apply elem_of_cons in Hin as [?|?]; done.
Qed.

Lemma dict_set_fresh d k v : k ∉ d.*1 → dict_set d k v = d ++ [(k, v)].
Proof.
  induction d as [|[k0 v0] d IH]; csimpl; [done|].
  rewrite not_elem_of_cons. intros [Hne Hnin].
  destruct (decide (k = k0)); [done|]. by rewrite IH.
Qed.

Lemma dict_get_elem d k v :
  NoDup d.*1 → (k, v) ∈ d ↔ dict_get d k = Some v.
Proof.
  induction d as [|[k0 v0] d IH]; csimpl.
  - intros _. split; [by intros ?%elem_of_nil | done].
  - intros [Hnin Hd]%NoDup_cons. rewrite elem_of_cons.
    destruct (decide (k = k0)) as [->|Hne].
    + split; [|intros [= ->]; by left].
      intros [[= ->] | Hin]; [done|].
      destruct Hnin. apply list_elem_of_fmap. by exists (k0, v).
    + rewrite <- (IH Hd). split; [intros [[= ? ?]|?]; done | by right].
Qed.
End DictFacts.

(** X9. For a dictionary (no key twice), [dict_iteration] returns the
    entries in their order and, as keys, the first components of those
    entries in the same order; a pair is among the items exactly when
    looking its key up in the dictionary gives its value. *)
Theorem dict_iteration_entries {K V : Type} `{EqDecision K} (d : list (K * V)) :
  NoDup (List.map fst d) →
  snd (dict_iteration d) = d
  ∧ fst (dict_iteration d) = List.map fst (snd (dict_iteration d))
  ∧ ∀ k v, (k, v) ∈ snd (dict_iteration d) ↔ dict_get d k = Some v.
Proof.
  intros Hd. unfold dict_iteration. simpl.
  rewrite (for_each_collect (λ k : K, [k])) by done.
  rewrite (for_each_collect (λ p : K * V, [p])) by (by intros [k v] out).
  simpl. rewrite !concat_singletons_id.
  split; [done|]. split; [done|]. intros k v. by apply dict_get_elem.
Qed.

Lemma dict_iteration_entries_witness :
  NoDup (List.map fst [("a"%string, 1); ("b"%string, 2)])
  ∧ snd (dict_iteration [("a"%string, 1); ("b"%string, 2)])
    = [("a"%string, 1); ("b"%string, 2)]
  ∧ fst (dict_iteration [("a"%string, 1); ("b"%string, 2)]) = ["a"; "b"]%string.
Proof.
  assert (Hd : NoDup (List.map fst [("a"%string, 1); ("b"%string, 2)])).
  { simpl. apply NoDup_cons. split; [|apply NoDup_singleton].
    intros Hin%list_elem_of_singleton. discriminate Hin. }
  split; [exact Hd|].
  destruct (dict_iteration_entries [("a"%string, 1); ("b"%string, 2)] Hd)
    as (Hitems & Hkeys & _).
  split; [exact Hitems | exact Hkeys].
Defined.

Section WordLengths.
Context {C : Type} `{EqDecision C}.
Implicit Types (w : list C) (words : list (list C)) (d : list (list C * Z)).

Lemma word_lengths_loop words d :
  for_each (λ w d, Next (dict_set d w (Z.of_nat (length w)))) words d
  = (fold_left (λ d w, dict_set d w (Z.of_nat (length w))) words d, Exhausted).
Proof. revert d. induction words as [|w words IH]; intros d; csimpl; [done | apply IH]. Qed.

Lemma word_lengths_get words d w :
  dict_get (fold_left (λ d w, dict_set d w (Z.of_nat (length w))) words d) w
  = if decide (w ∈ words) then Some (Z.of_nat (length w)) else dict_get d w.
Proof.
  revert d. induction words as [|w0 words IH]; intros d; csimpl.
  - destruct (decide (w ∈ [])) as [Hin|]; [by apply elem_of_nil in Hin | done].
  - rewrite IH, dict_get_set.
    destruct (decide (w ∈ words)) as [Hin|Hnin].
    + destruct (decide (w ∈ w0 :: words)) as [|Hnin]; [done|].
      destruct Hnin. by right.
    + destruct (decide (w = w0)) as [->|Hne].
      * destruct (decide (w0 ∈ w0 :: words)) as [|Hnin']; [done|].
        destruct Hnin'. by left.
      * destruct (decide (w ∈ w0 :: words)) as [Hin|]; [|done].
        apply elem_of_cons in Hin as [?|?]; done.
Qed.

Lemma word_lengths_keys words d :
  NoDup d.*1 →
  NoDup (fold_left (λ d w, dict_set d w (Z.of_nat (length w))) words d).*1
  ∧ ∀ w, w ∈ (fold_left (λ d w, dict_set d w (Z.of_nat (length w))) words d).*1
         ↔ w ∈ d.*1 ∨ w ∈ words.
Proof.
  revert d. induction words as [|w0 words IH]; intros d Hd; csimpl.
  - split; [done|]. intros w. rewrite elem_of_nil. tauto.
  - assert (Hset : NoDup (dict_set d w0 (Z.of_nat (length w0))).*1
                   ∧ ∀ w, w ∈ (dict_set d w0 (Z.of_nat (length w0))).*1
                          ↔ w ∈ d.*1 ∨ w = w0).
    { rewrite dict_set_keys. destruct (decide (w0 ∈ d.*1)) as [Hin|Hnin].
      - split; [done|]. intros w. split; [tauto|]. by intros [?| ->].
      - split.
        + apply NoDup_app. split; [done|]. split; [|apply NoDup_singleton].
          intros w Hw ->%list_elem_of_singleton. done.
        + intros w. by rewrite elem_of_app, list_elem_of_singleton. }
    destruct Hset as [Hnodup Hmem]. destruct (IH _ Hnodup) as [IH1 IH2].
    split; [done|]. intros w. rewrite IH2, Hmem, elem_of_cons. tauto.
Qed.

Lemma word_lengths_distinct words d :
  NoDup words → (∀ w, w ∈ words → w ∉ d.*1) →
  fold_left (λ d w, dict_set d w (Z.of_nat (length w))) words d
  = d ++ List.map (λ w, (w, Z.of_nat (length w))) words.
Proof.
  revert d. induction words as [|w0 words IH]; intros d Hwords Hfresh; csimpl.
  - by rewrite app_nil_r.
  - apply NoDup_cons in Hwords as [Hnin Hwords].
    rewrite dict_set_fresh by (apply Hfresh; by left).
    rewrite IH, <- app_assoc; [done | done |].
    intros w Hw. rewrite fmap_app, elem_of_app. csimpl.
    rewrite list_elem_of_singleton. intros [Hin | ->]; [|done].
    revert Hin. apply Hfresh. by right.
Qed.
End WordLengths.

(** X10. Looking a word up in [dict_comp_word_lengths words] gives its
    length when the word is one of [words], whether it occurs once or
    several times, and nothing otherwise. *)
Theorem dict_comp_word_lengths_get {C : Type} `{EqDecision C}
    (words : list (list C)) (w : list C) :
  dict_get (dict_comp_word_lengths words) w
  = if decide (w ∈ words) then Some (Z.of_nat (length w)) else None.
Proof.
  unfold dict_comp_word_lengths. rewrite word_lengths_loop. simpl.
  by rewrite word_lengths_get.
Qed.

(** X11. The keys of [dict_comp_word_lengths words] are the words, each
    once: no key is repeated, a string is a key exactly when it is one of
    the words, and there are at most as many entries as words.  When the
    words are all different, the entries are the words with their lengths,
    in the order of the words. *)
Theorem dict_comp_word_lengths_keys {C : Type} `{EqDecision C}
    (words : list (list C)) :
  NoDup (List.map fst (dict_comp_word_lengths words))
  ∧ (∀ w, w ∈ List.map fst (dict_comp_word_lengths words) ↔ w ∈ words)
  ∧ (length (dict_comp_word_lengths words) ≤ length words)%nat
  ∧ (NoDup words →
     dict_comp_word_lengths words
     = List.map (λ w, (w, Z.of_nat (length w))) words).
Proof.
  unfold dict_comp_word_lengths. rewrite word_lengths_loop. simpl.
  destruct (word_lengths_keys words []) as [Hnodup Hmem]; [constructor|].
  change (List.map fst ?l) with (l.*1).
  split; [done|]. split; [|split].
  - intros w. rewrite Hmem. simpl. rewrite elem_of_nil. tauto.
  - rewrite <- (length_fmap fst). apply submseteq_length, NoDup_submseteq; [done|].
    intros w Hw. apply Hmem in Hw as [Hw|Hw]; [by apply elem_of_nil in Hw | done].
  - intros Hwords. rewrite word_lengths_distinct; [done | done |].
    intros w _. apply not_elem_of_nil.
Qed.

Lemma dict_comp_word_lengths_keys_witness :
  NoDup [text "kot"; text "pies"; text "anakonda"]
  ∧ dict_comp_word_lengths [text "kot"; text "pies"; text "anakonda"]
    = [(text "kot", 3); (text "pies", 4); (text "anakonda", 8)].
Proof.
  assert (Hwords : NoDup [text "kot"; text "pies"; text "anakonda"]).
  { apply (bool_decide_unpack _). by vm_compute. }
  split; [exact Hwords|].
  exact (proj2 (proj2 (proj2
    (dict_comp_word_lengths_keys [text "kot"; text "pies"; text "anakonda"])))
    Hwords).
Defined.

(** ** More on break, continue and else *)

Lemma odds_only_cons (n : Z) (nums : list Z) :
  odds_only (n :: nums) = if is_even n then odds_only nums else n :: odds_only nums.
Proof.
  unfold odds_only.
  rewrite !(for_each_collect (λ n, if is_even n then [] else [n]));
    try (intros m out; destruct (is_even m); [by rewrite app_nil_r | done]).
  simpl. by destruct (is_even n).
Qed.

Lemma odds_only_odd (nums : list Z) : Forall (λ n, n mod 2 ≠ 0) (odds_only nums).
Proof.
  induction nums as [|n nums IH]; [constructor|]. rewrite odds_only_cons.
  destruct (is_even n) eqn:En; [done|].
  constructor; [by apply is_even_false_odd | done].
Qed.

Lemma odds_only_fixed (nums : list Z) :
  Forall (λ n, n mod 2 ≠ 0) nums ↔ odds_only nums = nums.
Proof.
  split; [|intros <-; apply odds_only_odd].
  induction 1 as [|n nums Hn _ IH]; [done|]. rewrite odds_only_cons.
  apply is_even_false_odd in Hn as ->. by rewrite IH.
Qed.

(** X12. The two results of [find_first_even] agree: the value is [None]
    exactly when the flag is true, and a value that is returned is an
    element of the list and is even. *)
Theorem find_first_even_coherent (nums : list Z) :
  (fst (find_first_even nums) = None ↔ snd (find_first_even nums) = true)
  ∧ ∀ v, fst (find_first_even nums) = Some v → v ∈ nums ∧ v mod 2 = 0.
Proof.
  unfold find_first_even.
  destruct (find_first_even_loop nums None)
    as [[_ Hrun] | (pre & v & post & -> & _ & Hv & Hrun)]; rewrite Hrun; simpl.
  - done.
  - split; [done|]. intros ? [= <-]. split; [|done].
    apply elem_of_app. right. by left.
Qed.

(** X13. What [odds_only] returns holds no even number: [find_first_even]
    finds nothing in it, and filtering it again changes nothing. *)
Theorem find_first_even_odds_only (nums : list Z) :
  find_first_even (odds_only nums) = (None, true)
  ∧ odds_only (odds_only nums) = odds_only nums.
Proof.
  split; [|apply odds_only_fixed, odds_only_odd].
  unfold find_first_even.
  destruct (find_first_even_loop (odds_only nums) None)
    as [[_ Hrun] | (pre & v & post & Hnums & _ & Hv & _)]; [by rewrite Hrun|].
  pose proof (odds_only_odd nums) as Hodd. rewrite Hnums in Hodd.
  apply Forall_app in Hodd as [_ Hodd]. by inversion Hodd.
Qed.

(** X14. [odds_only] returns its argument unchanged exactly when
    [find_first_even] runs through it without finding an even number. *)
Theorem odds_only_unchanged_iff (nums : list Z) :
  odds_only nums = nums ↔ find_first_even nums = (None, true).
Proof.
  rewrite <- odds_only_fixed. unfold find_first_even.
  destruct (find_first_even_loop nums None)
    as [[Hodd Hrun] | (pre & v & post & -> & _ & Hv & Hrun)]; rewrite Hrun.
  - done.
  - split; [|done]. intros [_ Hodd]%Forall_app. by inversion Hodd.
Qed.

(** X15. [odds_only] works through a list piece by piece, and never
    returns more elements than it was given. *)
Theorem odds_only_app (xs ys : list Z) :
  odds_only (xs ++ ys) = odds_only xs ++ odds_only ys
  ∧ (length (odds_only xs) ≤ length xs)%nat.
Proof.
  split.
  - induction xs as [|x xs IH]; [done|]. simpl app. rewrite !odds_only_cons, IH.
    by destruct (is_even x).
  - induction xs as [|x xs IH]; [done|]. rewrite odds_only_cons.
    destruct (is_even x); simpl; lia.
Qed.

(** ** More on the nested loops and the comprehensions *)

Lemma multiplication_table_entry (n : Z) (i j : nat) :
  multiplication_table n !! i ≫= (.!! j)
  = if decide (Z.of_nat i < n ∧ Z.of_nat j < n)
    then Some ((Z.of_nat i + 1) * (Z.of_nat j + 1)) else None.
Proof.
  rewrite multiplication_table_map. change (List.map ?f ?l) with (f <$> l).
  rewrite list_lookup_fmap. unfold range2 at 1.
  destruct (decide (Z.of_nat i < n)) as [Hi|Hi].
  - rewrite lookup_seqZ_lt by lia. simpl.
    rewrite multiplication_row_map. change (List.map ?f ?l) with (f <$> l).
    rewrite list_lookup_fmap. unfold range2.
    destruct (decide (Z.of_nat j < n)) as [Hj|Hj].
    + rewrite lookup_seqZ_lt by lia. simpl.
      rewrite decide_True by done. f_equal. lia.
    + rewrite lookup_seqZ_ge by lia. simpl. rewrite decide_False; [done | tauto].
  - rewrite lookup_seqZ_ge by lia. simpl. rewrite decide_False; [done | tauto].
Qed.

(** X16. The multiplication table is symmetric: the entry in row [i],
    column [j] and the entry in row [j], column [i] are the same, both
    present or both missing. *)
Theorem multiplication_table_symmetric (n : Z) (i j : nat) :
  multiplication_table n !! i ≫= (.!! j) = multiplication_table n !! j ≫= (.!! i).
Proof.
  rewrite !multiplication_table_entry.
  destruct (decide (Z.of_nat i < n ∧ Z.of_nat j < n)) as [Hij|Hij].
  - rewrite decide_True by tauto. f_equal. lia.
  - rewrite decide_False; [done | tauto].
Qed.

(** X17. For [n ≤ 0] the ranges are empty: [multiplication_table],
    [squares_until] and [even_squares_until] all return the empty list. *)
Theorem nonpositive_bound_empty (n : Z) :
  n ≤ 0 →
  multiplication_table n = [] ∧ squares_until n = [] ∧ even_squares_until n = [].
Proof.
  intros Hn. rewrite multiplication_table_map.
  unfold squares_until, even_squares_until, range, range2.
  by rewrite !seqZ_nil by lia.
Qed.

Lemma nonpositive_bound_empty_witness :
  -2 ≤ 0
  ∧ multiplication_table (-2) = [] ∧ squares_until (-2) = []
  ∧ even_squares_until (-2) = [].
Proof. split; [lia|]. apply (nonpositive_bound_empty (-2)). lia. Defined.

(** X18. For every [n], [squares_until n] has [max 0 n] elements and its
    [i]-th element is [i*i]. *)
Theorem squares_until_lookup (n : Z) :
  length (squares_until n) = Z.to_nat n
  ∧ ∀ i : nat, squares_until n !! i
      = if decide (Z.of_nat i < n) then Some (Z.of_nat i * Z.of_nat i) else None.
Proof.
  unfold squares_until, range, range2. rewrite Z.sub_0_r.
  change (List.map ?f ?l) with (f <$> l).
  split; [by rewrite length_fmap, length_seqZ|]. intros i.
  rewrite list_lookup_fmap. destruct (decide (Z.of_nat i < n)).
  - by rewrite lookup_seqZ_lt.
  - by rewrite lookup_seqZ_ge by lia.
Qed.

Lemma evens_of_range (k : nat) :
  List.filter is_even (range (Z.of_nat k))
  = List.map (λ m, 2 * m) (range ((Z.of_nat k + 1) / 2)).
Proof.
  induction k as [|k IH]; [done|].
  rewrite range_S, List.filter_app, IH. simpl List.filter.
  rewrite is_even_of_nat. destruct (Nat.even k) eqn:Ek.
  - apply Nat.even_spec in Ek as [m ->].
    replace ((Z.of_nat (S (2 * m)) + 1) / 2) with (Z.of_nat (S m))
      by (apply Z.div_unique with 0; lia).
    replace ((Z.of_nat (2 * m) + 1) / 2) with (Z.of_nat m)
      by (apply Z.div_unique with 1; lia).
    rewrite range_S, List.map_app. simpl. do 3 f_equal. lia.
  - rewrite app_nil_r. f_equal. f_equal.
    assert (Hodd : Nat.odd k = true) by (by rewrite <- Nat.negb_even, Ek).
    apply Nat.odd_spec in Hodd as [m ->].
    transitivity (Z.of_nat (S m)); [symmetry|].
    + apply Z.div_unique with 0; lia.
    + apply Z.div_unique with 1; lia.
Qed.

(** X19. For every [n], [even_squares_until n] is the list of [(2m)*(2m)]
    for [m] from 0 up to but not including [(n+1) // 2]; so it has
    [max 0 ((n+1) // 2)] elements, each a multiple of 4. *)
Theorem even_squares_until_closed (n : Z) :
  even_squares_until n = List.map (λ m, (2 * m) * (2 * m)) (range ((n + 1) / 2))
  ∧ length (even_squares_until n) = Z.to_nat ((n + 1) / 2)
  ∧ Forall (λ x, x mod 4 = 0) (even_squares_until n).
Proof.
  assert (Hclosed : even_squares_until n
            = List.map (λ m, (2 * m) * (2 * m)) (range ((n + 1) / 2))).
  { unfold even_squares_until. destruct (Z.le_gt_cases n 0) as [Hn|Hn].
    - unfold range, range2. rewrite !seqZ_nil; [done | | lia].
      assert ((n + 1) / 2 < 1); [|lia].
      apply Z.div_lt_upper_bound; lia.
    - rewrite <- (Z2Nat.id n) by lia. rewrite evens_of_range, List.map_map. done. }
  rewrite Hclosed. split; [done|]. split.
  - rewrite List.length_map. unfold range, range2.
    rewrite length_seqZ. f_equal. lia.
  - apply Forall_forall. intros x Hx.
    apply list_elem_of_In, List.in_map_iff in Hx as (m & <- & _).
    replace (2 * m * (2 * m)) with (m * m * 4) by lia.
    apply Z.mod_mul. lia.
Qed.

(** ** More on the file helpers *)

Lemma split_lines_length (s : list ascii) :
  length (split_lines s)
  = (length (List.filter (λ c, Ascii.eqb c LF) s)
     + if newline_terminated s then 0 else 1)%nat.
Proof.
  induction s as [|c s IH]; [done|].
  rewrite newline_terminated_cons. cbn [split_lines List.filter].
  destruct (Ascii.eqb c LF) eqn:Ec; simpl.
  - rewrite IH. by destruct s.
  - destruct s as [|d s]; [done|].
    destruct (split_lines (d :: s)) as [|line more] eqn:E.
    { by apply split_lines_nil in E. }
    by rewrite <- IH.
Qed.

Lemma rstrip_snoc_LF (s : list ascii) : rstrip [LF] (s ++ [LF]) = rstrip [LF] s.
Proof. induction s as [|c s IH]; [done|]. simpl. by rewrite IH. Qed.

Lemma plain_line_read (body rest : list ascii) :
  Forall (λ c, c ≠ LF ∧ c ≠ CR) body →
  read_lines (body ++ LF :: rest) = (body ++ [LF]) :: read_lines rest.
Proof.
  unfold read_lines. induction 1 as [|c body [Hlf Hcr] _ IH]; [done|]. simpl.
  apply Ascii.eqb_neq in Hlf, Hcr. rewrite Hcr, Hlf. simpl. by rewrite Hlf, IH.
Qed.

Lemma written_nonempty (lines : list (list ascii)) :
  lines ≠ [] → concat (List.map normalized lines) ≠ [].
Proof.
  destruct lines as [|line lines]; [done|]. intros _. simpl.
  unfold normalized at 1. by destruct (rstrip [LF] line).
Qed.

(** X21. On a file that exists, [count_lines] changes nothing in the store
    and returns the number of line breaks of the text as it is read (CR LF
    and a lone CR each read as one LF), plus one when the text is not empty
    and does not end with a line break. *)
Theorem count_lines_existing (fs : files) (path : string) (data : list ascii) :
  fs !! path = Some data →
  count_lines fs path
  = Some (fs,
          Z.of_nat (length (List.filter (λ c, Ascii.eqb c LF) (decode_newlines false data)))
          + if newline_terminated (decode_newlines false data) then 0 else 1).
Proof.
  intros Hdata.
  rewrite count_lines_eq, (ensure_file_present _ _ _ Hdata), Hdata. simpl.
  unfold read_lines. rewrite split_lines_length.
  do 2 f_equal. destruct (newline_terminated _); lia.
Qed.

Lemma count_lines_existing_witness :
  ({[ "file.txt"%string := text "a" ++ [CR; LF] ++ text "b" ++ [LF] ++ text "c" ]}
     : files) !! "file.txt"%string
    = Some (text "a" ++ [CR; LF] ++ text "b" ++ [LF] ++ text "c")
  ∧ count_lines
      {[ "file.txt"%string := text "a" ++ [CR; LF] ++ text "b" ++ [LF] ++ text "c" ]}
      "file.txt"
    = Some ({[ "file.txt"%string
                 := text "a" ++ [CR; LF] ++ text "b" ++ [LF] ++ text "c" ]}, 3).
Proof.
  assert (Hsome : ({[ "file.txt"%string
                        := text "a" ++ [CR; LF] ++ text "b" ++ [LF] ++ text "c" ]}
                     : files) !! "file.txt"%string
                  = Some (text "a" ++ [CR; LF] ++ text "b" ++ [LF] ++ text "c"))
    by apply lookup_singleton_eq.
  split; [exact Hsome|]. exact (count_lines_existing _ _ _ Hsome).
Defined.

(** X23. Appending in two calls is appending the two lists in one call,
    and appending no string only makes sure the file exists. *)
Theorem append_lines_app (fs : files) (path : string)
    (first second : list (list ascii)) :
  append_lines (append_lines fs path first) path second
  = append_lines fs path (first ++ second)
  ∧ append_lines fs path [] = ensure_file fs path.
Proof.
  split; [|done]. rewrite !append_lines_eq.
  rewrite lookup_insert_eq. simpl.
  rewrite (ensure_file_present _ _ _ (lookup_insert_eq _ _ _)).
  by rewrite insert_insert_eq, List.map_app, concat_app, app_assoc.
Qed.

(** X24. After [append_lines] the file ends with a line feed (or is empty)
    as soon as a string was written or the file was so before: a file that
    only [append_lines] writes to always holds complete lines. *)
Theorem append_lines_terminated (fs : files) (path : string)
    (lines : list (list ascii)) (new : list ascii) :
  lines ≠ [] ∨ newline_terminated (default [] (fs !! path)) = true →
  append_lines fs path lines !! path = Some new →
  newline_terminated new = true.
Proof.
  rewrite append_lines_eq, lookup_insert_eq. intros Hcase [= <-].
  pose proof (written_terminated lines) as Hw.
  apply newline_terminated_inv in Hw as [Hw | [pre Hw]].
  - rewrite Hw, app_nil_r. destruct Hcase as [Hne | Hold]; [|done].
    by apply written_nonempty in Hne.
  - rewrite Hw, app_assoc. apply newline_terminated_snoc.
Qed.

Lemma append_lines_terminated_witness :
  ([text "x"] ≠ []
   ∨ newline_terminated
       (default [] (({[ "file.txt"%string := text "abc" ]} : files)
                      !! "file.txt"%string)) = true)
  ∧ append_lines {[ "file.txt"%string := text "abc" ]} "file.txt" [text "x"]
      !! "file.txt"%string = Some (text "abcx" ++ [LF])
  ∧ newline_terminated (text "abcx" ++ [LF]) = true.
Proof.
  assert (Hcase : [text "x"] ≠ []
            ∨ newline_terminated
                (default [] (({[ "file.txt"%string := text "abc" ]} : files)
                               !! "file.txt"%string)) = true) by (by left).
  assert (Hnew : append_lines {[ "file.txt"%string := text "abc" ]} "file.txt"
                   [text "x"] !! "file.txt"%string = Some (text "abcx" ++ [LF]))
    by (by vm_compute).
  split; [exact Hcase|]. split; [exact Hnew|].
  exact (append_lines_terminated _ _ _ _ Hcase Hnew).
Defined.

(** X25. A line feed at the end of an input string makes no difference:
    [append_lines] writes the same file for the strings with a line feed
    added to each as for the strings themselves. *)
Theorem append_lines_trailing_newline (fs : files) (path : string)
    (lines : list (list ascii)) :
  append_lines fs path (List.map (λ line, line ++ [LF]) lines)
  = append_lines fs path lines.
Proof.
  rewrite !append_lines_eq. do 3 f_equal.
  rewrite List.map_map. apply List.map_ext. intros line.
  unfold normalized. by rewrite rstrip_snoc_LF.
Qed.

(** X26. Reading back what was written: when the file was missing, empty
    or ended with a line feed, and no input string has a line feed or a
    carriage return left once its trailing line feeds are stripped, the
    lines of the file after [append_lines] are the lines it had followed by
    the input strings, each stripped and ended by one line feed. *)
Theorem append_lines_read_back (fs : files) (path : string)
    (lines : list (list ascii)) (new : list ascii) :
  newline_terminated (default [] (fs !! path)) = true →
  Forall (λ line, Forall (λ c, c ≠ LF ∧ c ≠ CR) (rstrip [LF] line)) lines →
  append_lines fs path lines !! path = Some new →
  read_lines new
  = read_lines (default [] (fs !! path))
      ++ List.map (λ line, rstrip [LF] line ++ [LF]) lines.
Proof.
  rewrite append_lines_eq, lookup_insert_eq. intros Hold Hlines [= <-].
  rewrite read_lines_app by done. f_equal.
  induction Hlines as [|line lines Hline _ IH]; [done|]. simpl.
  unfold normalized at 1. rewrite <- app_assoc. simpl.
  by rewrite plain_line_read, IH.
Qed.

Lemma append_lines_read_back_witness :
  newline_terminated (default [] ((∅ : files) !! "file.txt"%string)) = true
  ∧ Forall (λ line, Forall (λ c, c ≠ LF ∧ c ≠ CR) (rstrip [LF] line))
      [text "ab"; text "c" ++ [LF; LF]]
  ∧ append_lines ∅ "file.txt" [text "ab"; text "c" ++ [LF; LF]] !! "file.txt"%string
    = Some (text "ab" ++ [LF] ++ text "c" ++ [LF])
  ∧ read_lines (text "ab" ++ [LF] ++ text "c" ++ [LF])
    = [text "ab" ++ [LF]; text "c" ++ [LF]].
Proof.
  assert (Hold : newline_terminated (default [] ((∅ : files) !! "file.txt"%string))
                 = true) by reflexivity.
  assert (Hlines : Forall (λ line, Forall (λ c, c ≠ LF ∧ c ≠ CR) (rstrip [LF] line))
            [text "ab"; text "c" ++ [LF; LF]]).
  { repeat constructor; discriminate. }
  assert (Hnew : append_lines ∅ "file.txt" [text "ab"; text "c" ++ [LF; LF]]
                   !! "file.txt"%string
                 = Some (text "ab" ++ [LF] ++ text "c" ++ [LF])) by (by vm_compute).
  split; [exact Hold|]. split; [exact Hlines|]. split; [exact Hnew|].
  exact (append_lines_read_back ∅ "file.txt" _ _ Hold Hlines Hnew).
Defined.

(** X27. [find_first_even] never looks past the first even number: on a
    list made of two parts it answers from the first part when that part
    holds an even number, and from the second part otherwise. *)
Theorem find_first_even_app (xs ys : list Z) :
  find_first_even (xs ++ ys)
  = match fst (find_first_even xs) with
    | Some _ => find_first_even xs
    | None => find_first_even ys
    end.
Proof.
  unfold find_first_even. rewrite for_each_app.
  destruct (find_first_even_loop xs None)
    as [[_ Hrun] | (pre & v & post & _ & _ & _ & Hrun)]; by rewrite Hrun.
Qed.

Lemma numeric_loops_step_zero_witness :
  numeric_loops 1 6 2 = Some [1; 3; 5]
  ∧ [1; 3; 5] !! 2%nat = Some 5
  ∧ 5 = 1 + Z.of_nat 2 * 2.
Proof.
  assert (Hrun : numeric_loops 1 6 2 = Some [1; 3; 5]) by reflexivity.
  assert (Hlook : [1; 3; 5] !! 2%nat = Some 5) by reflexivity.
  split; [exact Hrun|]. split; [exact Hlook|].
  exact (proj2 (numeric_loops_step_zero 1 6 2) _ 2%nat 5 Hrun Hlook).
Defined.

Lemma find_first_even_coherent_witness :
  fst (find_first_even [1; 3; 5; 8; 9]) = Some 8
  ∧ 8 ∈ [1; 3; 5; 8; 9] ∧ 8 mod 2 = 0.
Proof.
  assert (Hrun : fst (find_first_even [1; 3; 5; 8; 9]) = Some 8) by reflexivity.
  split; [exact Hrun|].
  exact (proj2 (find_first_even_coherent [1; 3; 5; 8; 9]) 8 Hrun).
Defined.

(** ** The helpers on the disk *)

Section DiskFacts.
Import Disk.
Implicit Types (d : disk) (path done todo r : list string).

Lemma between_step done name rest r :
  done `prefix_of` r → r `prefix_of` done ++ name :: rest →
  r = done ∨ (done ++ [name]) `prefix_of` r.
Proof.
  intros [k ->] [k' Hk]. rewrite <- app_assoc in Hk. apply app_inv_head in Hk.
  destruct k as [|x k]; [left; by rewrite app_nil_r | right].
  simpl in Hk. injection Hk as -> _. exists k. by rewrite <- app_assoc.
Qed.

Lemma prefix_snoc_ne done name r : (done ++ [name]) `prefix_of` r → r ≠ done.
Proof. intros Hpre ->. by apply prefix_snoc_not in Hpre. Qed.

Lemma make_dirs_ok d done todo :
  (∀ r data, done `prefix_of` r → r `prefix_of` done ++ todo →
     d !! r ≠ Some (File data)) →
  ∃ d', make_dirs d done todo = Ok d'
    ∧ ∀ r, d' !! r
           = match d !! r with
             | Some n => Some n
             | None =>
                 if decide (done `prefix_of` r ∧ r `prefix_of` done ++ todo)
                 then Some Dir else None
             end.
Proof.
  revert d done. induction todo as [|name rest IH]; intros d done Hfree; simpl.
  - destruct (d !! done) as [[data|]|] eqn:E.
    + destruct (Hfree done data); [done | by rewrite app_nil_r | done].
    + exists d. split; [done|]. intros r. destruct (d !! r) eqn:Er; [done|].
      rewrite decide_False; [done|]. rewrite app_nil_r. intros [H1 H2].
      assert (r = done) by (by apply (anti_symm prefix)). congruence.
    + exists (<[done := Dir]> d). split; [done|]. intros r.
      destruct (decide (r = done)) as [->|Hne].
      * rewrite lookup_insert_eq, E, decide_True; [done|].
        by rewrite app_nil_r.
      * rewrite lookup_insert_ne by done. destruct (d !! r); [done|].
        rewrite decide_False; [done|]. rewrite app_nil_r. intros [H1 H2].
        apply Hne. by apply (anti_symm prefix).
  - assert (Hon : ∀ r, (done ++ [name]) `prefix_of` r → done `prefix_of` r).
    { intros r Hr. by apply prefix_app_l in Hr. }
    destruct (d !! done) as [[data|]|] eqn:E.
    + destruct (Hfree done data); [done | by apply prefix_app_r | done].
    + destruct (IH d (done ++ [name])) as (d' & Hrun & Hlook).
      { intros r data H1 H2. rewrite <- app_assoc in H2. by apply Hfree; [apply Hon|]. }
      exists d'. split; [done|]. intros r. rewrite Hlook, <- app_assoc. simpl.
      destruct (d !! r) eqn:Er; [done|].
      destruct (decide (done ++ [name] `prefix_of` r
                        ∧ r `prefix_of` done ++ name :: rest)) as [[H1 H2]|Hn].
      * rewrite decide_True; [done|]. split; [by apply Hon | done].
      * rewrite decide_False; [done|]. intros [H1 H2].
        destruct (between_step _ _ _ _ H1 H2) as [->|H3]; [congruence | tauto].
    + destruct (IH (<[done := Dir]> d) (done ++ [name])) as (d' & Hrun & Hlook).
      { intros r data H1 H2. rewrite <- app_assoc in H2.
        rewrite lookup_insert_ne by (symmetry; by eapply prefix_snoc_ne).
        by apply Hfree; [apply Hon|]. }
      exists d'. split; [done|]. intros r. rewrite Hlook, <- app_assoc. simpl.
      destruct (decide (r = done)) as [->|Hne].
      * rewrite lookup_insert_eq, E, decide_True; [done|].
        split; [done | by apply prefix_app_r].
      * rewrite lookup_insert_ne by done. destruct (d !! r) eqn:Er; [done|].
        destruct (decide (done ++ [name] `prefix_of` r
                          ∧ r `prefix_of` done ++ name :: rest)) as [[H1 H2]|Hn].
        -- rewrite decide_True; [done|]. split; [by apply Hon | done].
        -- rewrite decide_False; [done|]. intros [H1 H2].
           destruct (between_step _ _ _ _ H1 H2) as [->|H3]; [done | tauto].
Qed.

Lemma make_dirs_free d done todo d' :
  make_dirs d done todo = Ok d' →
  ∀ r data, done `prefix_of` r → r `prefix_of` done ++ todo →
    d !! r ≠ Some (File data).
Proof.
  revert d done. induction todo as [|name rest IH]; intros d done; simpl.
  - rewrite app_nil_r. intros Hrun r data H1 H2.
    assert (r = done) as -> by (by apply (anti_symm prefix)).
    by destruct (d !! done) as [[?|]|].
  - intros Hrun r data H1 H2.
    destruct (between_step _ _ _ _ H1 H2) as [->|H3].
    + by destruct (d !! done) as [[?|]|].
    + assert (H2' : r `prefix_of` (done ++ [name]) ++ rest)
        by (by rewrite <- app_assoc).
      destruct (d !! done) as [[?|]|] eqn:E; [done| |].
      * by eapply IH.
      * intros Hr. eapply (IH _ _ Hrun r data); [done..|].
        rewrite lookup_insert_ne; [done|]. symmetry. by eapply prefix_snoc_ne.
Qed.

Lemma mkdir_parents_ok d path :
  (∀ r data, r `prefix_of` path → d !! r ≠ Some (File data)) →
  ∃ d', mkdir_parents d path = Ok d'
    ∧ ∀ r, d' !! r
           = match d !! r with
             | Some n => Some n
             | None => if decide (r `prefix_of` path) then Some Dir else None
             end.
Proof.
  intros Hfree. destruct (make_dirs_ok d [] path) as (d' & Hrun & Hlook).
  { intros r data _. apply Hfree. }
  exists d'. split; [done|]. intros r. rewrite Hlook. simpl.
  destruct (d !! r); [done|].
  destruct (decide (r `prefix_of` path)).
  - rewrite decide_True; [done|]. split; [apply prefix_nil | done].
  - rewrite decide_False; [done | tauto].
Qed.

Lemma ensure_file_ok d path :
  (∀ r data, r `prefix_of` parent path → d !! r ≠ Some (File data)) →
  ∃ d', ensure_file d path = Ok d'
    ∧ ∀ r, d' !! r
           = match d !! r with
             | Some n => Some n
             | None =>
                 if decide (r `prefix_of` parent path) then Some Dir
                 else if decide (r = path) then Some (File []) else None
             end.
Proof.
  intros Hfree. unfold ensure_file.
  destruct (mkdir_parents_ok d (parent path) Hfree) as (d1 & -> & Hlook).
  unfold touch. destruct (d1 !! path) as [n|] eqn:E.
  - exists d1. split; [done|]. intros r. rewrite Hlook.
    destruct (d !! r) eqn:Er; [done|].
    destruct (decide (r `prefix_of` parent path)); [done|].
    destruct (decide (r = path)) as [->|]; [|done].
    rewrite Hlook, Er, decide_False in E by done. done.
  - assert (Hparent : d1 !! parent path = Some Dir).
    { rewrite Hlook. destruct (d !! parent path) as [[data|]|] eqn:Ep.
      - by destruct (Hfree (parent path) data).
      - done.
      - by rewrite decide_True. }
    rewrite Hparent. exists (<[path := File []]> d1). split; [done|]. intros r.
    rewrite Hlook in E.
    destruct (decide (r = path)) as [->|Hne].
    + rewrite lookup_insert_eq. destruct (d !! path); [done|].
      by destruct (decide (path `prefix_of` parent path)).
    + rewrite lookup_insert_ne, Hlook by done. destruct (d !! r); [done|].
      by destruct (decide (r `prefix_of` parent path)).
Qed.

Lemma ensure_file_free d path d' :
  ensure_file d path = Ok d' →
  ∀ r data, r `prefix_of` parent path → d !! r ≠ Some (File data).
Proof.
  unfold ensure_file, mkdir_parents.
  destruct (make_dirs d [] (parent path)) as [d1|e] eqn:Hrun; [|done].
  intros _ r data Hr. eapply make_dirs_free; [done | apply prefix_nil | done].
Qed.

Lemma ensure_file_inv d path d' :
  ensure_file d path = Ok d' →
  ∀ r, d' !! r
       = match d !! r with
         | Some n => Some n
         | None =>
             if decide (r `prefix_of` parent path) then Some Dir
             else if decide (r = path) then Some (File []) else None
         end.
Proof.
  intros Hrun.
  destruct (ensure_file_ok d path (ensure_file_free _ _ _ Hrun)) as (d2 & Hrun2 & Hlook).
  rewrite Hrun in Hrun2. by injection Hrun2 as <-.
Qed.

Lemma ensure_file_extends d path d' r n :
  ensure_file d path = Ok d' → d !! r = Some n → d' !! r = Some n.
Proof. intros Hrun Hr. by rewrite (ensure_file_inv _ _ _ Hrun), Hr. Qed.

Lemma ensure_file_there d path d' :
  ensure_file d path = Ok d' → is_Some (d' !! path).
Proof.
  intros Hrun. rewrite (ensure_file_inv _ _ _ Hrun).
  destruct (d !! path); [done|].
  destruct (decide (path `prefix_of` parent path)); [done|].
  by rewrite decide_True.
Qed.

Lemma ensure_file_above d path d' r :
  ensure_file d path = Ok d' → r `prefix_of` parent path → d' !! r = Some Dir.
Proof.
  intros Hrun Hr. rewrite (ensure_file_inv _ _ _ Hrun).
  destruct (d !! r) as [[data|]|] eqn:Er.
  - by destruct (ensure_file_free _ _ _ Hrun r data).
  - done.
  - by rewrite decide_True.
Qed.

Lemma ensure_file_again d path d' :
  ensure_file d path = Ok d' → ensure_file d' path = Ok d'.
Proof.
  intros Hrun. destruct (ensure_file_ok d' path) as (d2 & Hrun2 & Hlook).
  { intros r data Hr. by rewrite (ensure_file_above _ _ _ _ Hrun Hr). }
  rewrite Hrun2. f_equal. apply map_eq. intros r. rewrite Hlook.
  destruct (d' !! r) eqn:Er; [done|].
  destruct (decide (r `prefix_of` parent path)) as [Hr|].
  { by rewrite (ensure_file_above _ _ _ _ Hrun Hr) in Er. }
  destruct (decide (r = path)) as [->|]; [|done].
  destruct (ensure_file_there _ _ _ Hrun) as [x Hx]. congruence.
Qed.

Lemma parent_snoc path name : parent (path ++ [name]) = path.
Proof. apply removelast_last. Qed.

Lemma parent_prefix path : parent path `prefix_of` path.
Proof.
  destruct path as [|name path _] using rev_ind; [done|].
  rewrite parent_snoc. by apply prefix_app_r.
Qed.


Lemma ensure_file_well_formed d path d' :
  ensure_file d path = Ok d' → well_formed d → well_formed d'.
Proof.
  intros Hrun [Hroot Hin]. split; [by eapply ensure_file_extends|].
  intros r n. rewrite (ensure_file_inv _ _ _ Hrun r).
  destruct (d !! r) as [n'|] eqn:Er.
  - intros _. eapply ensure_file_extends; [done|]. by eapply Hin.
  - destruct (decide (r `prefix_of` parent path)) as [Hr|].
    + intros _. eapply ensure_file_above; [done|].
      trans r; [apply parent_prefix | done].
    + destruct (decide (r = path)) as [->|]; [|done].
      intros _. by eapply ensure_file_above.
Qed.

Lemma well_formed_above d path n r :
  well_formed d → d !! path = Some n → r `prefix_of` path → r ≠ path →
  d !! r = Some Dir.
Proof.
  intros [_ Hin] Hpath [k ->]. revert n Hpath.
  induction k as [|name k IH] using rev_ind; intros n Hpath Hne.
  - by rewrite app_nil_r in Hne.
  - rewrite app_assoc in Hpath. apply Hin in Hpath. rewrite parent_snoc in Hpath.
    destruct k as [|x k]; [by rewrite app_nil_r in Hpath|].
    eapply IH; [done|]. intros Heq. by apply (f_equal length) in Heq;
      rewrite length_app in Heq; simpl in Heq; lia.
Qed.

Lemma make_dirs_stops d done todo rest data :
  (∀ r, done `prefix_of` r → r `prefix_of` done ++ todo → r ≠ done ++ todo →
     d !! r = Some Dir) →
  d !! (done ++ todo) = Some (File data) →
  make_dirs d done (todo ++ rest)
  = Raise (match rest with [] => FileExistsError | _ => NotADirectoryError end).
Proof.
  revert done. induction todo as [|name todo IH]; intros done Habove Hfile.
  - rewrite app_nil_r in Hfile. simpl. destruct rest; simpl; by rewrite Hfile.
  - simpl. rewrite (Habove done); [|done | by apply prefix_app_r |].
    + apply IH.
      * intros r H1 H2 H3. rewrite <- app_assoc in H2, H3.
        apply Habove; [by apply prefix_app_l in H1 | done..].
      * by rewrite <- app_assoc.
    + intros Heq. apply (f_equal length) in Heq.
      rewrite length_app in Heq. simpl in Heq. lia.
Qed.

Lemma ensure_file_stops d path r data :
  well_formed d → r `prefix_of` parent path → d !! r = Some (File data) →
  ensure_file d path
  = Raise (if decide (r = parent path) then FileExistsError
           else NotADirectoryError).
Proof.
  intros Hwf [rest Hrest] Hfile. unfold ensure_file, mkdir_parents.
  rewrite Hrest, (make_dirs_stops d [] r rest data).
  - destruct rest as [|name rest].
    + by rewrite app_nil_r, decide_True.
    + rewrite decide_False; [done|]. intros Heq. apply (f_equal length) in Heq.
      rewrite length_app in Heq. simpl in Heq. lia.
  - intros q _ Hq Hne. by eapply well_formed_above.
  - done.
Qed.

Lemma ensure_file_existing d path :
  well_formed d → is_Some (d !! path) → ensure_file d path = Ok d.
Proof.
  intros Hwf [n Hn].
  assert (Habove : ∀ r, r `prefix_of` parent path → d !! r = Some Dir).
  { intros r Hr. destruct (decide (r = path)) as [->|Hne].
    - destruct path as [|name path _] using rev_ind; [apply Hwf|].
      rewrite parent_snoc in Hr. by apply prefix_snoc_not in Hr.
    - eapply well_formed_above; [done.. | | done].
      trans (parent path); [done | apply parent_prefix]. }
  destruct (ensure_file_ok d path) as (d' & -> & Hlook).
  { intros r data Hr. by rewrite (Habove r Hr). }
  f_equal. apply map_eq. intros r. rewrite Hlook.
  destruct (d !! r) eqn:Er; [done|].
  destruct (decide (r `prefix_of` parent path)) as [Hr|].
  { rewrite (Habove r Hr) in Er. done. }
  destruct (decide (r = path)) as [->|]; [congruence | done].
Qed.

Lemma disk_append_loop d path old (lines : list (list ascii)) :
  d !! path = Some (File old) →
  for_each (λ line d, Next (write_end d path (rstrip [LF] line ++ [LF]))) lines d
  = (<[path := File (old ++ concat (List.map normalized lines))]> d, Exhausted).
Proof.
  revert d old. induction lines as [|line lines IH]; intros d old Hold; simpl.
  - rewrite app_nil_r. by rewrite insert_id.
  - rewrite (IH _ (old ++ normalized line)).
    + unfold write_end. by rewrite Hold, insert_insert_eq, app_assoc.
    + unfold write_end. by rewrite Hold, lookup_insert_eq.
Qed.

Lemma count_lines_inv d path d' n :
  count_lines d path = Ok (d', n) →
  ensure_file d path = Ok d'
  ∧ ∃ data, d' !! path = Some (File data)
      ∧ n = Z.of_nat (length (read_lines data)).
Proof.
  unfold count_lines.
  destruct (ensure_file d path) as [d1|e] eqn:Hrun; [|done].
  destruct (d1 !! path) as [[data|]|] eqn:Hpath; [|done..].
  rewrite count_loop. simpl. intros [= <- <-]. split; [done|]. by exists data.
Qed.

Lemma append_lines_inv d path lines d' :
  append_lines d path lines = Ok d' →
  ∃ d1 old,
    ensure_file d path = Ok d1
    ∧ d1 !! path = Some (File old)
    ∧ d' = <[path := File (old ++ concat (List.map normalized lines))]> d1.
Proof.
  unfold append_lines, open_append.
  destruct (ensure_file d path) as [d1|e] eqn:Hrun; [|done].
  destruct (ensure_file_there _ _ _ Hrun) as [n Hn]. rewrite Hn.
  destruct n as [old|]; [|done]. rewrite (disk_append_loop _ _ old) by done.
  simpl. intros [= <-]. by exists d1, old.
Qed.

Lemma ensure_file_content d path d' data :
  ensure_file d path = Ok d' → d' !! path = Some (File data) →
  d !! path = Some (File data) ∨ d !! path = None ∧ data = [].
Proof.
  intros Hrun Hpath. rewrite (ensure_file_inv _ _ _ Hrun) in Hpath.
  destruct (d !! path) as [n|]; [left; congruence | right].
  destruct (decide (path `prefix_of` parent path)); [done|].
  destruct (decide (path = path)); [|done]. split; congruence.
Qed.

Lemma well_formed_root : well_formed {[ [] := Dir ]}.
Proof.
  split; [apply lookup_singleton_eq|].
  intros path n [<- _]%lookup_singleton_Some. apply lookup_singleton_eq.
Qed.

Lemma well_formed_new_file d path data :
  well_formed d → d !! parent path = Some Dir → d !! path = None →
  well_formed (<[path := File data]> d).
Proof.
  intros [Hroot Hin] Hparent Hnone.
  assert (Hne : ∀ r n, d !! r = Some n → path ≠ r) by (intros r n Hr ->; congruence).
  split; [by rewrite lookup_insert_ne by eauto|].
  intros r n. destruct (decide (path = r)) as [<-|Hr].
  - intros _. by rewrite lookup_insert_ne by eauto.
  - rewrite lookup_insert_ne by done. intros Hn%Hin.
    by rewrite lookup_insert_ne by eauto.
Qed.




(** A path that names a directory names no file either, and there
    [count_lines] raises when it opens the directory for reading. *)
Example count_lines_starting_directory :
  count_lines {[ [] := Dir ]} [] = Raise IsADirectoryError.
Proof. reflexivity. Qed.

(** X20. When [ensure_file] returns, it has overwritten and removed
    nothing: whatever existed is as it was, something exists at the path,
    and what is new is either the empty file at the path or a directory
    above it.  Doing it again changes nothing, and the disk is still well
    formed. *)
Theorem ensure_file_returns d path d' :
  ensure_file d path = Ok d' →
  (∀ r n, d !! r = Some n → d' !! r = Some n)
  ∧ is_Some (d' !! path)
  ∧ (∀ r n, d !! r = None → d' !! r = Some n →
       n = Dir ∧ r `prefix_of` parent path ∨ n = File [] ∧ r = path)
  ∧ ensure_file d' path = Ok d'
  ∧ (well_formed d → well_formed d').
Proof.
  intros Hrun. split; [|split; [|split; [|split]]].
  - intros r n. by eapply ensure_file_extends.
  - by eapply ensure_file_there.
  - intros r n Hr. rewrite (ensure_file_inv _ _ _ Hrun), Hr.
    destruct (decide (r `prefix_of` parent path)); [intros [= <-]; by left|].
    destruct (decide (r = path)); [intros [= <-]; by right | done].
  - by eapply ensure_file_again.
  - by eapply ensure_file_well_formed.
Qed.

Lemma ensure_file_returns_witness :
  ensure_file {[ [] := Dir ]} ["logs"%string; "file.txt"%string]
  = Ok (<[ ["logs"%string; "file.txt"%string] := File [] ]>
          (<[ ["logs"%string] := Dir ]> {[ [] := Dir ]}))
  ∧ ensure_file
      (<[ ["logs"%string; "file.txt"%string] := File [] ]>
         (<[ ["logs"%string] := Dir ]> {[ [] := Dir ]}))
      ["logs"%string; "file.txt"%string]
    = Ok (<[ ["logs"%string; "file.txt"%string] := File [] ]>
            (<[ ["logs"%string] := Dir ]> {[ [] := Dir ]})).
Proof.
  assert (Hrun : ensure_file {[ [] := Dir ]} ["logs"%string; "file.txt"%string]
                 = Ok (<[ ["logs"%string; "file.txt"%string] := File [] ]>
                         (<[ ["logs"%string] := Dir ]> {[ [] := Dir ]})))
    by reflexivity.
  split; [exact Hrun|].
  exact (proj1 (proj2 (proj2 (proj2 (ensure_file_returns _ _ _ Hrun))))).
Defined.

(** X28. On a path that names a directory, [ensure_file] returns and
    changes nothing, and [count_lines] and [append_lines] raise
    [IsADirectoryError] when they open it. *)
Theorem directory_path_raises d path (lines : list (list ascii)) :
  well_formed d → d !! path = Some Dir →
  ensure_file d path = Ok d
  ∧ count_lines d path = Raise IsADirectoryError
  ∧ append_lines d path lines = Raise IsADirectoryError.
Proof.
  intros Hwf Hdir.
  assert (Hrun : ensure_file d path = Ok d) by (by apply ensure_file_existing).
  unfold count_lines, append_lines, open_append. by rewrite Hrun, Hdir.
Qed.

Lemma directory_path_raises_witness :
  well_formed {[ [] := Dir ]}
  ∧ ({[ [] := Dir ]} : disk) !! [] = Some Dir
  ∧ count_lines {[ [] := Dir ]} [] = Raise IsADirectoryError
  ∧ append_lines {[ [] := Dir ]} [] [text "x"] = Raise IsADirectoryError.
Proof.
  assert (Hdir : ({[ [] := Dir ]} : disk) !! [] = Some Dir)
    by apply lookup_singleton_eq.
  split; [exact well_formed_root|]. split; [exact Hdir|].
  exact (proj2 (directory_path_raises _ _ [text "x"] well_formed_root Hdir)).
Defined.

(** X29. When the parent of the path, or a directory above the parent, is
    a regular file, [ensure_file], [count_lines] and [append_lines] all
    raise: [FileExistsError] when the regular file is the parent itself,
    [NotADirectoryError] when it is above. *)
Theorem path_under_file_raises d path (lines : list (list ascii)) r data :
  well_formed d → r `prefix_of` parent path → d !! r = Some (File data) →
  ensure_file d path
    = Raise (if decide (r = parent path) then FileExistsError
             else NotADirectoryError)
  ∧ count_lines d path
    = Raise (if decide (r = parent path) then FileExistsError
             else NotADirectoryError)
  ∧ append_lines d path lines
    = Raise (if decide (r = parent path) then FileExistsError
             else NotADirectoryError).
Proof.
  intros Hwf Hr Hfile. unfold count_lines, append_lines.
  by rewrite (ensure_file_stops _ _ _ _ Hwf Hr Hfile).
Qed.

Lemma path_under_file_raises_witness :
  well_formed (<[ ["a"%string] := File [] ]> {[ [] := Dir ]})
  ∧ ["a"%string] `prefix_of` parent ["a"%string; "b"%string; "c"%string]
  ∧ (<[ ["a"%string] := File [] ]> {[ [] := Dir ]} : disk) !! ["a"%string]
    = Some (File [])
  ∧ count_lines (<[ ["a"%string] := File [] ]> {[ [] := Dir ]})
      ["a"%string; "b"%string; "c"%string]
    = Raise NotADirectoryError.
Proof.
  assert (Hwf : well_formed (<[ ["a"%string] := File [] ]> {[ [] := Dir ]})).
  { apply well_formed_new_file; [apply well_formed_root | |].
    - apply lookup_singleton_eq.
    - by apply lookup_singleton_ne. }
  assert (Hr : ["a"%string] `prefix_of` parent ["a"%string; "b"%string; "c"%string])
    by (by exists ["b"%string]).
  assert (Hfile : (<[ ["a"%string] := File [] ]> {[ [] := Dir ]} : disk)
                    !! ["a"%string] = Some (File [])) by apply lookup_insert_eq.
  split; [exact Hwf|]. split; [exact Hr|]. split; [exact Hfile|].
  exact (proj1 (proj2 (path_under_file_raises _ _ [] _ _ Hwf Hr Hfile))).
Defined.

End DiskFacts.

(** X22. When [count_lines] returns, the disk it leaves is the one
    [ensure_file] leaves, the path holds a regular file, which is the file
    that was there or an empty one if there was none, and the count is the
    number of lines of that file: it is not negative, it is the count the
    store gives for that text, and counting again returns the same count
    and changes nothing. *)
Theorem count_lines_returns (d d' : Disk.disk) (path : list string) (n : Z) :
  Disk.count_lines d path = Disk.Ok (d', n) →
  Disk.ensure_file d path = Disk.Ok d'
  ∧ (∃ data, d' !! path = Some (Disk.File data)
       ∧ (d !! path = Some (Disk.File data) ∨ d !! path = None ∧ data = [])
       ∧ n = Z.of_nat (length (read_lines data))
       ∧ ∀ (fs : files) key, fs !! key = Some data →
           count_lines fs key = Some (fs, n))
  ∧ 0 ≤ n
  ∧ Disk.count_lines d' path = Disk.Ok (d', n).
Proof.
  intros Hcount.
  destruct (count_lines_inv _ _ _ _ Hcount) as (Hrun & data & Hpath & ->).
  split; [done|]. split; [|split; [lia|]].
  - exists data. split; [done|].
    split; [by eapply ensure_file_content|]. split; [done|].
    intros fs key Hkey.
    by rewrite count_lines_eq, (ensure_file_present _ _ _ Hkey), Hkey.
  - unfold Disk.count_lines.
    by rewrite (ensure_file_again _ _ _ Hrun), Hpath, count_loop.
Qed.

Lemma count_lines_returns_witness :
  Disk.count_lines
    (<[ ["file.txt"%string] := Disk.File (text "a" ++ [LF] ++ text "b") ]>
       {[ [] := Disk.Dir ]}) ["file.txt"%string]
  = Disk.Ok (<[ ["file.txt"%string] := Disk.File (text "a" ++ [LF] ++ text "b") ]>
               {[ [] := Disk.Dir ]}, 2)
  ∧ 0 ≤ 2.
Proof.
  assert (Hrun :
    Disk.count_lines
      (<[ ["file.txt"%string] := Disk.File (text "a" ++ [LF] ++ text "b") ]>
         {[ [] := Disk.Dir ]}) ["file.txt"%string]
    = Disk.Ok (<[ ["file.txt"%string] := Disk.File (text "a" ++ [LF] ++ text "b") ]>
                 {[ [] := Disk.Dir ]}, 2)) by reflexivity.
  split; [exact Hrun|].
  exact (proj1 (proj2 (proj2 (count_lines_returns _ _ _ _ Hrun)))).
Defined.

(** X30. When [append_lines] returns, the path held a regular file once
    [ensure_file] had run (the file that was there, or an empty one), and
    the disk is the one [ensure_file] left with that file holding what it
    held followed by each input string, stripped of its trailing line feeds
    and ended by one line feed; this is the text the store gives. *)
Theorem append_lines_returns (d d' : Disk.disk) (path : list string)
    (lines : list (list ascii)) :
  Disk.append_lines d path lines = Disk.Ok d' →
  ∃ d1 old,
    Disk.ensure_file d path = Disk.Ok d1
    ∧ d1 !! path = Some (Disk.File old)
    ∧ (d !! path = Some (Disk.File old) ∨ d !! path = None ∧ old = [])
    ∧ d' = <[path := Disk.File
               (old ++ concat (List.map (λ line, rstrip [LF] line ++ [LF]) lines))]>
             d1
    ∧ ∀ (fs : files) key, fs !! key = Some old →
        append_lines fs key lines !! key
        = Some (old ++ concat (List.map (λ line, rstrip [LF] line ++ [LF]) lines)).
Proof.
  intros Happend.
  destruct (append_lines_inv _ _ _ _ Happend) as (d1 & old & Hrun & Hpath & ->).
  exists d1, old. split; [done|]. split; [done|].
  split; [by eapply ensure_file_content|]. split; [done|].
  intros fs key Hkey. by rewrite append_lines_eq, lookup_insert_eq, Hkey.
Qed.

Lemma append_lines_returns_witness :
  Disk.append_lines {[ [] := Disk.Dir ]} ["file.txt"%string]
    [text "x"; text "y" ++ [LF]]
  = Disk.Ok (<[ ["file.txt"%string]
                  := Disk.File (text "x" ++ [LF] ++ text "y" ++ [LF]) ]>
               {[ [] := Disk.Dir ]})
  ∧ ∃ d1 old,
      Disk.ensure_file {[ [] := Disk.Dir ]} ["file.txt"%string] = Disk.Ok d1
      ∧ d1 !! ["file.txt"%string] = Some (Disk.File old).
Proof.
  assert (Hrun :
    Disk.append_lines {[ [] := Disk.Dir ]} ["file.txt"%string]
      [text "x"; text "y" ++ [LF]]
    = Disk.Ok (<[ ["file.txt"%string]
                    := Disk.File (text "x" ++ [LF] ++ text "y" ++ [LF]) ]>
                 {[ [] := Disk.Dir ]})) by reflexivity.
  split; [exact Hrun|].
  destruct (append_lines_returns _ _ _ _ Hrun) as (d1 & old & H1 & H2 & _).
  by exists d1, old.
Defined.
